(** * MovieShelf recommendation endpoint: a shallow embedding

    This development embeds [Movie.post] of [RecommendationSystem.py]: the
    handler of [POST /movie/recommend/<target>], which loads the whole movie
    table, vectorizes the genre strings with a word 1-gram/2-gram
    [CountVectorizer], computes the pairwise cosine similarity, ranks every
    row with [argsort()[:, ::-1]], keeps the first 16 ranked indices of the
    target's row, drops the target's own index and returns the posters of the
    remaining rows.

    Conventions of the embedding.
    - The rows fetched by the cursor are the input [all_movies]; the database
      and the HTTP layer stay outside.
    - Text is [string]: the bytes of its UTF-8 encoding, on which comparing
      titles and deleting commas act as they act on code points.
      [lower], [is_word_char] and [analyze] are the analyzer of
      [CountVectorizer] on ASCII text.  Outside ASCII the analyzer depends on
      Unicode tables that the source does not hold: the handler is then taken
      over any analyzer ([post_with]), and [post] is [post_with analyze].
    - Exceptions are values of [Error]; a handler that raises returns [inl].
    - [cosine_similarity] is given over the reals, as scikit-learn defines it
      (L2-normalize each row, rows of norm zero left alone, then take dot
      products).  The ranking compares the exact squares of those cosines as
      rationals ([cos2]); both agree on the order because a cosine of count
      vectors is never negative.  The rounding of float64 is not modelled.
      An entry is exactly zero in float64 when it is zero here (no shared
      feature, an empty sum); two entries that are equal here may differ by
      a rounding step in float64, in either direction, which is one more
      way of breaking a tie: the statements about order and size hold for
      every order argsort may give to entries that are equal here.  Nothing
      is stated about the float64 value of a non-zero entry.
    - numpy's default [argsort] promises an ascending order and nothing about
      ties.  The handler is therefore parameterized by [argsort], and the
      theorems hold for every function meeting [argsort_contract];
      [argsort_stable] is the stable instance (what numpy's introsort does on
      rows of at most 17 entries, where it is an insertion sort).
    - The JSON text returned by [to_json(orient='records')] is an array with
      one object [{"movie_poster": p}] per selected row, in order; the model
      returns the list of those [p]. *)

From Stdlib Require Import String Ascii Bool Arith ZArith QArith Lia.
From Stdlib Require Import Reals Lra Qreals.
From Stdlib Require Import List Permutation Sorted.
Import ListNotations.

Local Open Scope string_scope.
Local Open Scope list_scope.
Local Open Scope nat_scope.

(** ** Exceptions *)

Inductive Error : Type :=
| EmptyVocabulary   (* ValueError: empty vocabulary (CountVectorizer) *)
| ShapeMismatch     (* operands could not be broadcast together *)
| IndexOutOfBounds. (* IndexError of an integer or boolean index *)

Definition Result (A : Type) : Type := (Error + A)%type.

Definition ret {A : Type} (a : A) : Result A := inr a.

Definition raise {A : Type} (e : Error) : Result A := inl e.

Definition bind {A B : Type} (r : Result A) (k : A -> Result B) : Result B :=
  match r with
  | inl e => inl e
  | inr a => k a
  end.

Notation "x <- r ;; k" := (bind r (fun x => k))
  (at level 61, r at next level, right associativity).

Fixpoint mapM {A B : Type} (f : A -> Result B) (l : list A) : Result (list B) :=
  match l with
  | [] => ret []
  | a :: l' => b <- f a ;; bs <- mapM f l' ;; ret (b :: bs)
  end.

(** ** The movie table *)

Record Movie : Type := mkMovie {
  movie_title : string;
  movie_poster : string;
  movie_genres : string
}.

(** ** Text preparation *)

(** [x.replace(',', '')]: every comma is deleted, nothing is put in its
    place. *)
Fixpoint replace_comma (x : string) : string :=
  match x with
  | EmptyString => EmptyString
  | String c x' =>
      if Ascii.eqb c "," then replace_comma x' else String c (replace_comma x')
  end.

Definition genres_literal (movies : list Movie) : list string :=
  map (fun m => replace_comma (movie_genres m)) movies.

(** [CountVectorizer(lowercase=True)]: [str.lower], on ASCII text, where it
    maps A-Z to a-z and nothing else. *)
Definition lower_char (c : ascii) : ascii :=
  let n := nat_of_ascii c in
  if (65 <=? n) && (n <=? 90) then ascii_of_nat (n + 32) else c.

Fixpoint lower (s : string) : string :=
  match s with
  | EmptyString => EmptyString
  | String c s' => String (lower_char c) (lower s')
  end.

(** The class [\w] on ASCII text: letters, digits and the underscore. *)
Definition is_word_char (c : ascii) : bool :=
  let n := nat_of_ascii c in
  ((48 <=? n) && (n <=? 57)) || ((65 <=? n) && (n <=? 90))
  || ((97 <=? n) && (n <=? 122)) || (n =? 95).

(** A maximal run of word characters is a token when it has two characters
    or more: the default [token_pattern = r"(?u)\b\w\w+\b"]. *)
Definition keep_run (run : string) : list string :=
  if 2 <=? String.length run then [run] else [].

Fixpoint findall_words (s : string) (run : string) : list string :=
  match s with
  | EmptyString => keep_run run
  | String c s' =>
      if is_word_char c
      then findall_words s' (run ++ String c EmptyString)%string
      else keep_run run ++ findall_words s' EmptyString
  end.

Definition tokenize (doc : string) : list string :=
  findall_words doc EmptyString.

(** The 2-grams of [ngram_range=(1,2)]: adjacent tokens joined by a space. *)
Fixpoint bigrams (tokens : list string) : list string :=
  match tokens with
  | a :: ((b :: _) as rest) => (a ++ " " ++ b)%string :: bigrams rest
  | _ => []
  end.

(** The analyzer: lower-case, tokenize, then the 1-grams followed by the
    2-grams. *)
Definition analyze (doc : string) : list string :=
  let tokens := tokenize (lower doc) in
  tokens ++ bigrams tokens.

(** ** CountVectorizer *)

Fixpoint insert_feature (f : string) (l : list string) : list string :=
  match l with
  | [] => [f]
  | g :: l' => if String.leb f g then f :: l else g :: insert_feature f l'
  end.

Definition sort_features (l : list string) : list string :=
  fold_right insert_feature [] l.

(** The fitted vocabulary: the distinct features of all documents, in sorted
    order ([min_df=0] and the default [max_df=1.0] prune nothing). *)
Definition vocabulary (docs : list string) : list string :=
  sort_features (nodup string_dec (concat (map analyze docs))).

Definition count_vector (vocab : list string) (doc : string) : list Z :=
  map (fun f => Z.of_nat (count_occ string_dec (analyze doc) f)) vocab.

(** [count_vect.fit_transform(docs)]: the document-term count matrix, one
    row per document; an empty vocabulary raises. *)
Definition fit_transform (docs : list string) : Result (list (list Z)) :=
  match vocabulary docs with
  | [] => raise EmptyVocabulary
  | vocab => ret (map (count_vector vocab) docs)
  end.

(** ** Cosine similarity *)

Fixpoint dot (x y : list Z) : Z :=
  match x, y with
  | a :: x', b :: y' => (a * b + dot x' y')%Z
  | _, _ => 0%Z
  end.

Definition row_norm (x : list Z) : R := sqrt (IZR (dot x x)).

(** The divisor of a row: its L2 norm, a norm of zero being replaced by
    one. *)
Definition scale (x : list Z) : R :=
  if Req_dec_T (row_norm x) 0 then 1%R else row_norm x.

(** [normalize(X)]: each row divided by its divisor. *)
Definition normalize (x : list Z) : list R :=
  map (fun a => (IZR a / scale x)%R) x.

Fixpoint dotR (x y : list R) : R :=
  match x, y with
  | a :: x', b :: y' => (a * b + dotR x' y')%R
  | _, _ => 0%R
  end.

Definition cosine_similarity (x y : list Z) : R :=
  dotR (normalize x) (normalize y).

(** The square of [cosine_similarity], as an exact rational: the key by
    which the rows are ranked. *)
Definition cos2 (x y : list Z) : Q :=
  let nx := dot x x in
  let ny := dot y y in
  if ((nx =? 0) || (ny =? 0))%Z then 0%Q
  else Qmake (dot x y * dot x y) (Z.to_pos (nx * ny)).

(** [genre_sim = cosine_similarity(genre_mat, genre_mat)], entry by entry
    the squared cosine. *)
Definition genre_sim (genre_mat : list (list Z)) : list (list Q) :=
  map (fun x => map (fun y => cos2 x y) genre_mat) genre_mat.

(** ** argsort *)

(** What numpy documents of [argsort]: the indices of the row, in an order
    that makes the values ascend. *)
Definition argsort_contract (argsort : list Q -> list nat) : Prop :=
  forall v : list Q,
    Permutation (argsort v) (seq 0 (length v)) /\
    StronglySorted (fun i j => (nth i v 0 <= nth j v 0)%Q) (argsort v).

Fixpoint insert_index (v : list Q) (i : nat) (l : list nat) : list nat :=
  match l with
  | [] => [i]
  | j :: l' =>
      if Qle_bool (nth i v 0%Q) (nth j v 0%Q) then i :: l
      else j :: insert_index v i l'
  end.

(** The stable ascending argsort: equal values keep their index order. *)
Definition argsort_stable (v : list Q) : list nat :=
  fold_right (insert_index v) [] (seq 0 (length v)).

(** ** The handler *)

(** [movies[movies['movie_title'] == target].index.values] *)
Definition title_index (movies : list Movie) (target : string) : list nat :=
  filter (fun i =>
            match nth_error movies i with
            | Some m => String.eqb (movie_title m) target
            | None => false
            end)
         (seq 0 (length movies)).

(** [a[rows, :stop]]: the first [stop] entries of each listed row. *)
Definition take_rows {A : Type} (a : list (list A)) (rows : list nat)
    (stop : nat) : Result (list (list A)) :=
  mapM (fun r => match nth_error a r with
                 | Some row => ret (firstn stop row)
                 | None => raise IndexOutOfBounds
                 end) rows.

(** [a != b] on one-dimensional integer arrays, with numpy's broadcasting:
    equal lengths compare element by element, a length of one is stretched,
    anything else does not broadcast. *)
Definition not_equal (a b : list nat) : Result (list bool) :=
  if length a =? length b
  then ret (map (fun p => negb (fst p =? snd p)) (combine a b))
  else if length b =? 1
  then ret (map (fun x => negb (x =? hd 0 b)) a)
  else if length a =? 1
  then ret (map (fun y => negb (hd 0 a =? y)) b)
  else raise ShapeMismatch.

(** [a[mask]] with a boolean mask: the mask must be as long as [a]. *)
Definition bool_index {A : Type} (a : list A) (mask : list bool)
    : Result (list A) :=
  if length a =? length mask
  then ret (map fst (filter snd (combine a mask)))
  else raise IndexOutOfBounds.

(** [movies.iloc[indexes]] *)
Definition iloc (movies : list Movie) (indexes : list nat)
    : Result (list Movie) :=
  mapM (fun i => match nth_error movies i with
                 | Some m => ret m
                 | None => raise IndexOutOfBounds
                 end) indexes.

(** [genre_sim_sorted_ind = genre_sim.argsort()[:, ::-1]]: every row
    argsorted on its own, then reversed. *)
Definition genre_sim_sorted_ind (argsort : list Q -> list nat)
    (genre_mat : list (list Z)) : list (list nat) :=
  map (fun row => rev (argsort row)) (genre_sim genre_mat).

(** The body of [Movie.post] down to the last assignment of
    [similar_indexes]: the indices that are handed to [iloc]. *)
Definition similar_indexes (argsort : list Q -> list nat)
    (movies : list Movie) (target : string) : Result (list nat) :=
  (* genre_mat = count_vect.fit_transform(movies['genres_literal']) *)
  genre_mat <- fit_transform (genres_literal movies) ;;
  (* genre_sim = cosine_similarity(genre_mat, genre_mat)
     genre_sim_sorted_ind = genre_sim.argsort()[:, ::-1] *)
  let sorted_ind := genre_sim_sorted_ind argsort genre_mat in
  (* title_movie = movies[movies['movie_title'] == target]
     title_index = title_movie.index.values *)
  let title_idx := title_index movies target in
  (* similar_indexes = genre_sim_sorted_ind[title_index, :(16)] *)
  selected <- take_rows sorted_ind title_idx 16 ;;
  (* similar_indexes = similar_indexes.reshape(-1) *)
  let flat := concat selected in
  (* similar_indexes = similar_indexes[similar_indexes != title_index] *)
  mask <- not_equal flat title_idx ;;
  bool_index flat mask.

(** [Movie.post]: the posters of the selected rows, in ranking order. *)
Definition post (argsort : list Q -> list nat)
    (all_movies : list Movie) (target : string) : Result (list string) :=
  indexes <- similar_indexes argsort all_movies target ;;
  (* similar_movies = movies.iloc[similar_indexes] *)
  similar_movies <- iloc all_movies indexes ;;
  (* movies_recommend = similar_movies[['movie_poster']] *)
  ret (map movie_poster similar_movies).

(** ** Vocabulary of the statements *)

(** [a] occurs in [l] at a position strictly before an occurrence of [b]. *)
Definition ranked_ahead (a b : string) (l : list string) : Prop :=
  exists i j, i < j /\ nth_error l i = Some a /\ nth_error l j = Some b.

(** The genre tags of a movie as the specification reads them: the pieces
    of the genre string between commas. *)
Fixpoint split_comma (s : string) (piece : string) : list string :=
  match s with
  | EmptyString => [piece]
  | String c s' =>
      if Ascii.eqb c "," then piece :: split_comma s' EmptyString
      else split_comma s' (piece ++ String c EmptyString)%string
  end.

Definition genre_tags (m : Movie) : list string :=
  split_comma (movie_genres m) EmptyString.

(** The scenario catalog of the specification. *)
Definition scenario_catalog : list Movie :=
  [ mkMovie "Alien" "p1" "Horror,Sci-Fi";
    mkMovie "Saw" "p2" "Horror";
    mkMovie "Up" "p3" "Animation,Family" ].

(** The same catalog with a space after each comma. *)
Definition spaced_catalog : list Movie :=
  [ mkMovie "Alien" "p1" "Horror, Sci-Fi";
    mkMovie "Saw" "p2" "Horror";
    mkMovie "Up" "p3" "Animation, Family" ].



(** A row whose only genre tag is a single letter. *)
Definition short_tag_catalog : list Movie :=
  [ mkMovie "Pi" "p1" "A";
    mkMovie "Saw" "p2" "Horror" ].

(** One row, whose only genre tag is a single letter. *)
Definition single_short_tag_catalog : list Movie :=
  [ mkMovie "Pi" "p1" "A" ].

(** [poster_at movies i]: the poster of row [i]. *)
Definition poster_at (movies : list Movie) (i : nat) : string :=
  match nth_error movies i with
  | Some m => movie_poster m
  | None => EmptyString
  end.

(** The tokens the vectorizer reads in a movie's genre string. *)
Definition genre_tokens (m : Movie) : list string :=
  tokenize (lower (replace_comma (movie_genres m))).

(** [ne_index t]: the mask entry of [similar_indexes != [t]]. *)
Definition ne_index (t : nat) (i : nat) : bool := negb (i =? t).

(** Row [i] of the table, for indices known to be in range. *)
Definition row_or_default (movies : list Movie) (i : nat) : Movie :=
  match nth_error movies i with
  | Some m => m
  | None => mkMovie EmptyString EmptyString EmptyString
  end.

(** The count matrix [fit_transform] returns when it returns. *)
Definition count_matrix (movies : list Movie) : list (list Z) :=
  map (count_vector (vocabulary (genres_literal movies)))
      (genres_literal movies).

(** Entry [i], [j] of the similarity matrix, as a real cosine and as its
    rational square. *)
Definition genre_similarity (movies : list Movie) (i j : nat) : R :=
  cosine_similarity (nth i (count_matrix movies) [])
                    (nth j (count_matrix movies) []).

Definition genre_similarity2 (movies : list Movie) (i j : nat) : Q :=
  cos2 (nth i (count_matrix movies) []) (nth j (count_matrix movies) []).


(** The ranking of row [t]: all row indices, most similar first. *)
Definition ranking (argsort : list Q -> list nat) (movies : list Movie)
    (t : nat) : list nat :=
  rev (argsort (map (cos2 (nth t (count_matrix movies) []))
                    (count_matrix movies))).

(** [a] is immediately followed by [b] in [l]. *)
Definition adjacent (a b : string) (l : list string) : Prop :=
  exists l1 l2, l = l1 ++ a :: b :: l2.

(** The features the vectorizer counts for a movie: its tokens, then its
    adjacent pairs of tokens. *)
Definition features (m : Movie) : list string :=
  analyze (replace_comma (movie_genres m)).

(** [s] is made of word characters only. *)
Fixpoint all_word_chars (s : string) : bool :=
  match s with
  | EmptyString => true
  | String c s' => is_word_char c && all_word_chars s'
  end.

(** The row with its genre string lower-cased. *)
Definition lower_genres (m : Movie) : Movie :=
  mkMovie (movie_title m) (movie_poster m) (lower (movie_genres m)).

(** The sum of the entries of a row of the count matrix. *)
Definition row_sum (x : list Z) : Z := fold_right Z.add 0%Z x.

(** ** The handler over any analyzer *)

(** [CountVectorizer]'s analyzer ([build_analyzer()]) lower-cases with
    [str.lower], cuts tokens with the Unicode class [\w] and adds the
    2-grams.  Its character tables are Unicode's and are not in the source:
    outside ASCII the analyzer is a parameter, [analyzer], a function from a
    document to its features.  Everything the handler does after the
    analyzer, and the deletion of commas before it, is the same as above.
    On ASCII text the analyzer is [analyze]. *)
Section AnyAnalyzer.
Variable analyzer : string -> list string.

Definition vocabulary_with (docs : list string) : list string :=
  sort_features (nodup string_dec (concat (map analyzer docs))).

Definition count_vector_with (vocab : list string) (doc : string) : list Z :=
  map (fun f => Z.of_nat (count_occ string_dec (analyzer doc) f)) vocab.

Definition fit_transform_with (docs : list string) : Result (list (list Z)) :=
  match vocabulary_with docs with
  | [] => raise EmptyVocabulary
  | vocab => ret (map (count_vector_with vocab) docs)
  end.

Definition similar_indexes_with (argsort : list Q -> list nat)
    (movies : list Movie) (target : string) : Result (list nat) :=
  (* genre_mat = count_vect.fit_transform(movies['genres_literal']) *)
  genre_mat <- fit_transform_with (genres_literal movies) ;;
  (* genre_sim = cosine_similarity(genre_mat, genre_mat)
     genre_sim_sorted_ind = genre_sim.argsort()[:, ::-1] *)
  let sorted_ind := genre_sim_sorted_ind argsort genre_mat in
  (* title_movie = movies[movies['movie_title'] == target]
     title_index = title_movie.index.values *)
  let title_idx := title_index movies target in
  (* similar_indexes = genre_sim_sorted_ind[title_index, :(16)] *)
  selected <- take_rows sorted_ind title_idx 16 ;;
  (* similar_indexes = similar_indexes.reshape(-1) *)
  let flat := concat selected in
  (* similar_indexes = similar_indexes[similar_indexes != title_index] *)
  mask <- not_equal flat title_idx ;;
  bool_index flat mask.

Definition post_with (argsort : list Q -> list nat)
    (all_movies : list Movie) (target : string) : Result (list string) :=
  indexes <- similar_indexes_with argsort all_movies target ;;
  (* similar_movies = movies.iloc[similar_indexes] *)
  similar_movies <- iloc all_movies indexes ;;
  (* movies_recommend = similar_movies[['movie_poster']] *)
  ret (map movie_poster similar_movies).

(** The features of a movie: what the analyzer reads in its genre string
    once the commas are deleted. *)
Definition features_with (m : Movie) : list string :=
  analyzer (replace_comma (movie_genres m)).

Definition count_matrix_with (movies : list Movie) : list (list Z) :=
  map (count_vector_with (vocabulary_with (genres_literal movies)))
      (genres_literal movies).

Definition genre_similarity_with (movies : list Movie) (i j : nat) : R :=
  cosine_similarity (nth i (count_matrix_with movies) [])
                    (nth j (count_matrix_with movies) []).

Definition genre_similarity2_with (movies : list Movie) (i j : nat) : Q :=
  cos2 (nth i (count_matrix_with movies) [])
       (nth j (count_matrix_with movies) []).

Definition ranking_with (argsort : list Q -> list nat) (movies : list Movie)
    (t : nat) : list nat :=
  rev (argsort (map (cos2 (nth t (count_matrix_with movies) []))
                    (count_matrix_with movies))).
End AnyAnalyzer.

(** The analyzer built from a tokenizer: the tokens of the document, then
    its adjacent pairs of tokens joined by a space ([ngram_range=(1,2)]). *)
Definition analyze_with (tokens : string -> list string) (doc : string)
    : list string :=
  let ts := tokens doc in
  ts ++ bigrams ts.

(** The tokenizer on ASCII text: lower-case, then the runs of two or more
    word characters. *)
Definition ascii_tokens (doc : string) : list string :=
  tokenize (lower doc).

(** [s] holds ASCII characters only: every byte is below 128. *)
Fixpoint ascii_text (s : string) : bool :=
  match s with
  | EmptyString => true
  | String c s' => (nat_of_ascii c <? 128) && ascii_text s'
  end.

(** The characters of a string. *)
Fixpoint chars (s : string) : list ascii :=
  match s with
  | EmptyString => []
  | String c s' => c :: chars s'
  end.

(** Ten rows of genre Horror followed by ten rows of genre Comedy, titled A
    to T, with posters a to t. *)
Definition two_genre_catalog : list Movie :=
  map (fun i => mkMovie (String (ascii_of_nat (65 + i)) EmptyString)
                        (String (ascii_of_nat (97 + i)) EmptyString)
                        (if i <? 10 then "Horror" else "Comedy"))
      (seq 0 20).

(** * Lemmas *)

(** ** Lists *)

Section ListFacts.
Context {A : Type}.
Variable R : A -> A -> Prop.

Lemma StronglySorted_app_intro (l1 l2 : list A) :
  StronglySorted R l1 -> StronglySorted R l2 ->
  (forall a b, In a l1 -> In b l2 -> R a b) ->
  StronglySorted R (l1 ++ l2).
Proof.
  induction l1 as [|x l1 IH]; simpl; intros H1 H2 H12; auto.
  apply StronglySorted_inv in H1. destruct H1 as [H1 Hx].
  constructor.
  - apply IH; auto.
  - apply Forall_app. split.
    + exact Hx.
    + apply Forall_forall. intros b Hb. apply H12; auto.
Qed.

Lemma StronglySorted_app_elim (l1 l2 : list A) :
  StronglySorted R (l1 ++ l2) ->
  StronglySorted R l1 /\ StronglySorted R l2 /\
  (forall a b, In a l1 -> In b l2 -> R a b).
Proof.
  induction l1 as [|x l1 IH]; simpl; intros H.
  - repeat split; auto. constructor. intros a b [].
  - apply StronglySorted_inv in H. destruct H as [H Hx].
    destruct (IH H) as (H1 & H2 & H12).
    apply Forall_app in Hx. destruct Hx as [Hx1 Hx2].
    repeat split; auto.
    + constructor; auto.
    + intros a b [<-|Ha] Hb.
      * rewrite Forall_forall in Hx2. auto.
      * auto.
Qed.

Lemma StronglySorted_firstn (n : nat) (l : list A) :
  StronglySorted R l -> StronglySorted R (firstn n l).
Proof.
  intros H. rewrite <- (firstn_skipn n l) in H.
  apply StronglySorted_app_elim in H. tauto.
Qed.

Lemma StronglySorted_filter (f : A -> bool) (l : list A) :
  StronglySorted R l -> StronglySorted R (filter f l).
Proof.
  induction l as [|x l IH]; simpl; intros H; auto.
  apply StronglySorted_inv in H. destruct H as [H Hx].
  destruct (f x); auto.
  constructor; auto.
  rewrite Forall_forall in *. intros y Hy.
  apply filter_In in Hy. apply Hx. tauto.
Qed.

Lemma StronglySorted_nth_error (l : list A) :
  StronglySorted R l ->
  forall i j a b, i < j ->
    nth_error l i = Some a -> nth_error l j = Some b -> R a b.
Proof.
  induction 1 as [|x l Hl IH Hx]; intros i j a b Hij Hi Hj.
  - destruct i; discriminate.
  - destruct j as [|j]; [lia|].
    destruct i as [|i]; simpl in *.
    + injection Hi as <-. rewrite Forall_forall in Hx.
      apply Hx. eapply nth_error_In; eauto.
    + apply (IH i j); auto. lia.
Qed.

Lemma NoDup_firstn (n : nat) (l : list A) : NoDup l -> NoDup (firstn n l).
Proof.
  intros H. rewrite <- (firstn_skipn n l) in H.
  eapply NoDup_app_remove_r; eauto.
Qed.

Lemma In_firstn (n : nat) (l : list A) (x : A) :
  In x (firstn n l) -> In x l.
Proof.
  intros H. rewrite <- (firstn_skipn n l). apply in_or_app. auto.
Qed.
End ListFacts.

Lemma StronglySorted_rev {A : Type} (R : A -> A -> Prop) (l : list A) :
  StronglySorted R l -> StronglySorted (fun a b => R b a) (rev l).
Proof.
  induction 1 as [|x l Hl IH Hx]; simpl.
  - constructor.
  - apply StronglySorted_app_intro; auto.
    + repeat constructor.
    + intros a b Ha [<-|[]]. rewrite Forall_forall in Hx.
      apply Hx. apply in_rev. exact Ha.
Qed.

(** ** The error monad *)

Lemma mapM_total {A B : Type} (f : A -> Result B) (g : A -> B) (l : list A) :
  (forall a, In a l -> f a = inr (g a)) -> mapM f l = inr (map g l).
Proof.
  induction l as [|a l IH]; simpl; intros H; auto.
  rewrite (H a) by auto. simpl. rewrite IH by auto. reflexivity.
Qed.

Lemma mapM_inr {A B : Type} (f : A -> Result B) (l : list A) (bs : list B) :
  mapM f l = inr bs -> Forall2 (fun a b => f a = inr b) l bs.
Proof.
  revert bs. induction l as [|a l IH]; simpl; intros bs H.
  - injection H as <-. constructor.
  - destruct (f a) as [e|b] eqn:Ea; simpl in H; [discriminate|].
    destruct (mapM f l) as [e|bs'] eqn:El; simpl in H; [discriminate|].
    injection H as <-. constructor; auto.
Qed.

(** ** The indexing steps of the handler *)

Lemma iloc_in_range (movies : list Movie) (indexes : list nat) :
  (forall i, In i indexes -> i < length movies) ->
  iloc movies indexes = inr (map (row_or_default movies) indexes).
Proof.
  intros H. unfold iloc. apply mapM_total.
  intros i Hi. unfold row_or_default.
  destruct (nth_error movies i) eqn:E; auto.
  apply nth_error_None in E. specialize (H i Hi). lia.
Qed.

Lemma poster_row_or_default (movies : list Movie) (indexes : list nat) :
  map movie_poster (map (row_or_default movies) indexes)
  = map (poster_at movies) indexes.
Proof.
  rewrite map_map. apply map_ext. intros i.
  unfold row_or_default, poster_at.
  destruct (nth_error movies i); reflexivity.
Qed.

Lemma not_equal_single (flat : list nat) (t : nat) :
  not_equal flat [t] = inr (map (ne_index t) flat).
Proof.
  unfold not_equal. simpl length.
  destruct (length flat =? 1) eqn:E.
  - apply Nat.eqb_eq in E.
    destruct flat as [|x [|y flat]]; simpl in E; try discriminate.
    reflexivity.
  - reflexivity.
Qed.

Lemma bool_index_map {A : Type} (f : A -> bool) (a : list A) :
  bool_index a (map f a) = inr (filter f a).
Proof.
  unfold bool_index. rewrite length_map, Nat.eqb_refl. unfold ret. f_equal.
  induction a as [|x a IH]; simpl; auto.
  destruct (f x); simpl; rewrite IH; reflexivity.
Qed.

Lemma similar_indexes_unique argsort movies target t genre_mat row :
  title_index movies target = [t] ->
  fit_transform (genres_literal movies) = inr genre_mat ->
  nth_error (genre_sim_sorted_ind argsort genre_mat) t = Some row ->
  similar_indexes argsort movies target
  = inr (filter (ne_index t) (firstn 16 row)).
Proof.
  intros Ht Hfit Hrow. unfold similar_indexes.
  rewrite Hfit. cbn [bind]. rewrite Ht.
  unfold take_rows. cbn [mapM]. rewrite Hrow. cbn [bind ret concat].
  rewrite app_nil_r, not_equal_single. cbn [bind].
  apply bool_index_map.
Qed.


Lemma post_of_indexes argsort movies target indexes :
  similar_indexes argsort movies target = inr indexes ->
  (forall i, In i indexes -> i < length movies) ->
  post argsort movies target = inr (map (poster_at movies) indexes).
Proof.
  intros Hs Hr. unfold post. rewrite Hs. cbn [bind].
  rewrite iloc_in_range by exact Hr. cbn [bind ret].
  rewrite poster_row_or_default. reflexivity.
Qed.


(** ** The vectorizer *)

Lemma fit_transform_inr (docs : list string) (genre_mat : list (list Z)) :
  fit_transform docs = inr genre_mat ->
  vocabulary docs <> [] /\
  genre_mat = map (count_vector (vocabulary docs)) docs.
Proof.
  unfold fit_transform. destruct (vocabulary docs) eqn:E.
  - discriminate.
  - intros H. injection H as <-. split; [discriminate | reflexivity].
Qed.

Lemma fit_transform_ok (docs : list string) :
  vocabulary docs <> [] ->
  fit_transform docs = inr (map (count_vector (vocabulary docs)) docs).
Proof.
  unfold fit_transform. destruct (vocabulary docs) eqn:E.
  - intros H. contradiction.
  - reflexivity.
Qed.

Lemma fit_transform_length (movies : list Movie) (genre_mat : list (list Z)) :
  fit_transform (genres_literal movies) = inr genre_mat ->
  length genre_mat = length movies.
Proof.
  intros H. apply fit_transform_inr in H. destruct H as [_ ->].
  unfold genres_literal. rewrite !length_map. reflexivity.
Qed.

Lemma In_insert_feature (f g : string) (l : list string) :
  In g (insert_feature f l) <-> g = f \/ In g l.
Proof.
  induction l as [|h l IH]; simpl.
  - intuition.
  - destruct (String.leb f h); simpl; rewrite ?IH; intuition.
Qed.

Lemma In_sort_features (g : string) (l : list string) :
  In g (sort_features l) <-> In g l.
Proof.
  induction l as [|h l IH]; simpl.
  - tauto.
  - rewrite In_insert_feature, IH. intuition.
Qed.


Lemma title_index_In (movies : list Movie) (target : string) (t : nat) :
  In t (title_index movies target) <->
  exists m, nth_error movies t = Some m /\ movie_title m = target.
Proof.
  unfold title_index. rewrite filter_In, in_seq. split.
  - intros [_ H]. destruct (nth_error movies t) as [m|]; [|discriminate].
    exists m. split; auto. apply String.eqb_eq. exact H.
  - intros (m & Hm & Ht). split.
    + split; [lia|]. simpl. apply nth_error_Some. rewrite Hm. discriminate.
    + rewrite Hm. apply String.eqb_eq. exact Ht.
Qed.

Lemma title_index_nil (movies : list Movie) (target : string) :
  (forall m, In m movies -> movie_title m <> target) ->
  title_index movies target = [].
Proof.
  intros H. destruct (title_index movies target) as [|t l] eqn:E; auto.
  assert (Ht : In t (title_index movies target)) by (rewrite E; left; auto).
  apply title_index_In in Ht. destruct Ht as (m & Hm & Ht).
  apply nth_error_In in Hm. elim (H m Hm Ht).
Qed.

(** ** Dot products and cosines *)

Lemma dot_sym (x y : list Z) : dot x y = dot y x.
Proof.
  revert y. induction x as [|a x IH]; intros [|b y]; simpl; auto.
  rewrite IH. ring.
Qed.

Lemma dot_self_nonneg (x : list Z) : (0 <= dot x x)%Z.
Proof.
  induction x as [|a x IH]; simpl; [lia|]. nia.
Qed.

Lemma dot_nonneg (x y : list Z) :
  Forall (fun a => 0 <= a)%Z x -> Forall (fun a => 0 <= a)%Z y ->
  (0 <= dot x y)%Z.
Proof.
  intros Hx. revert y. induction Hx as [|a x Ha Hx IH]; intros y Hy.
  - simpl. lia.
  - destruct Hy as [|b y Hb Hy]; simpl; [lia|].
    specialize (IH y Hy). nia.
Qed.

Lemma dot_self_zero (x : list Z) :
  dot x x = 0%Z -> forall y, dot x y = 0%Z.
Proof.
  induction x as [|a x IH]; intros H y; simpl; auto.
  simpl in H. pose proof (dot_self_nonneg x) as Hn.
  assert (Ha : a = 0%Z) by nia.
  assert (Hx : dot x x = 0%Z) by nia.
  destruct y as [|b y]; auto. rewrite (IH Hx). subst a. ring.
Qed.

Lemma twice_le_sum (X P Q : Z) :
  (X * X <= P * Q)%Z -> (0 <= P)%Z -> (0 <= Q)%Z -> (2 * X <= P + Q)%Z.
Proof.
  intros HX HP HQ.
  destruct (Z.le_gt_cases (2 * X) (P + Q)) as [Hle|Hgt]; auto.
  exfalso.
  assert (H4 : ((P + Q) * (P + Q) < (2 * X) * (2 * X))%Z)
    by (apply Z.mul_lt_mono_nonneg; lia).
  pose proof (Z.square_nonneg (P - Q)) as H5.
  nia.
Qed.

(** Cauchy-Schwarz on integer vectors. *)
Lemma dot_cauchy_schwarz (x y : list Z) :
  (dot x y * dot x y <= dot x x * dot y y)%Z.
Proof.
  revert y. induction x as [|a x IH]; intros y.
  - simpl. pose proof (dot_self_nonneg y). lia.
  - destruct y as [|b y].
    + simpl. lia.
    + simpl. specialize (IH y).
      pose proof (dot_self_nonneg x) as HA.
      pose proof (dot_self_nonneg y) as HB.
      set (D := dot x y) in *. set (A := dot x x) in *.
      set (B := dot y y) in *.
      assert (Hc : (2 * (a * b * D) <= a * a * B + b * b * A)%Z).
      { assert (H1 : ((a * b * D) * (a * b * D)
                      <= (a * a * B) * (b * b * A))%Z).
        { replace ((a * b * D) * (a * b * D))%Z
            with ((a * a * (b * b)) * (D * D))%Z by ring.
          replace ((a * a * B) * (b * b * A))%Z
            with ((a * a * (b * b)) * (A * B))%Z by ring.
          apply Z.mul_le_mono_nonneg_l; [nia | exact IH]. }
        assert (H2 : (0 <= a * a * B)%Z) by nia.
        assert (H3 : (0 <= b * b * A)%Z) by nia.
        apply twice_le_sum; assumption. }
      nia.
Qed.

Lemma count_vector_nonneg (vocab : list string) (doc : string) :
  Forall (fun a => 0 <= a)%Z (count_vector vocab doc).
Proof.
  unfold count_vector. apply Forall_forall. intros a Ha.
  apply in_map_iff in Ha. destruct Ha as (f & <- & _). lia.
Qed.

Section Cosine.
Local Open Scope R_scope.

Lemma dotR_scaled (x y : list Z) (n m : R) :
  n <> 0 -> m <> 0 ->
  dotR (map (fun a => IZR a / n) x) (map (fun b => IZR b / m) y)
  = IZR (dot x y) / (n * m).
Proof.
  intros Hn Hm. revert y.
  induction x as [|a x IH]; intros [|b y]; simpl;
    try (unfold Rdiv; ring).
  rewrite IH, plus_IZR, mult_IZR. field. auto.
Qed.

Lemma scale_pos (x : list Z) : 0 < scale x.
Proof.
  unfold scale. destruct (Req_dec_T (row_norm x) 0) as [E|E]; [lra|].
  unfold row_norm in *. pose proof (sqrt_pos (IZR (dot x x))). lra.
Qed.

Lemma cosine_similarity_eq (x y : list Z) :
  cosine_similarity x y = IZR (dot x y) / (scale x * scale y).
Proof.
  unfold cosine_similarity, normalize.
  pose proof (scale_pos x). pose proof (scale_pos y).
  apply dotR_scaled; lra.
Qed.

Lemma row_norm_zero (x : list Z) : row_norm x = 0 <-> dot x x = 0%Z.
Proof.
  unfold row_norm. pose proof (dot_self_nonneg x) as Hn.
  apply IZR_le in Hn. split.
  - intros H. apply sqrt_eq_0 in H; auto. apply eq_IZR. exact H.
  - intros ->. apply sqrt_0.
Qed.

Lemma scale_square (x : list Z) :
  dot x x <> 0%Z -> scale x * scale x = IZR (dot x x).
Proof.
  intros H. unfold scale.
  destruct (Req_dec_T (row_norm x) 0) as [E|E].
  - apply row_norm_zero in E. contradiction.
  - unfold row_norm. apply sqrt_sqrt. apply IZR_le, dot_self_nonneg.
Qed.

Lemma cosine_similarity_nonneg (x y : list Z) :
  Forall (fun a => 0 <= a)%Z x -> Forall (fun a => 0 <= a)%Z y ->
  0 <= cosine_similarity x y.
Proof.
  intros Hx Hy. rewrite cosine_similarity_eq.
  pose proof (scale_pos x). pose proof (scale_pos y).
  apply Rmult_le_pos.
  - apply IZR_le. apply dot_nonneg; auto.
  - left. apply Rinv_0_lt_compat. apply Rmult_lt_0_compat; auto.
Qed.

Lemma cosine_similarity_square (x y : list Z) :
  cosine_similarity x y * cosine_similarity x y = Q2R (cos2 x y).
Proof.
  rewrite cosine_similarity_eq. unfold cos2.
  pose proof (scale_pos x) as Hsx. pose proof (scale_pos y) as Hsy.
  destruct (Z.eqb_spec (dot x x) 0) as [Ex|Ex]; cbn [orb].
  { rewrite (dot_self_zero x Ex). unfold Q2R. simpl. field. lra. }
  destruct (Z.eqb_spec (dot y y) 0) as [Ey|Ey].
  { rewrite dot_sym, (dot_self_zero y Ey). unfold Q2R. simpl. field. lra. }
  pose proof (dot_self_nonneg x). pose proof (dot_self_nonneg y).
  unfold Q2R. cbn [Qnum Qden]. rewrite Z2Pos.id by nia.
  rewrite !mult_IZR.
  rewrite <- (scale_square x Ex), <- (scale_square y Ey).
  field. lra.
Qed.

Lemma cosine_similarity_le_1 (x y : list Z) :
  Forall (fun a => 0 <= a)%Z x -> Forall (fun a => 0 <= a)%Z y ->
  cosine_similarity x y <= 1.
Proof.
  intros Hx Hy.
  pose proof (cosine_similarity_nonneg x y Hx Hy) as H0.
  assert (H2 : cosine_similarity x y * cosine_similarity x y <= 1).
  { rewrite cosine_similarity_square. unfold cos2.
    destruct ((dot x x =? 0)%Z || (dot y y =? 0)%Z) eqn:E.
    - unfold Q2R. simpl. lra.
    - apply orb_false_iff in E. destruct E as [Ex Ey].
      apply Z.eqb_neq in Ex, Ey.
      pose proof (dot_self_nonneg x). pose proof (dot_self_nonneg y).
      pose proof (dot_cauchy_schwarz x y) as Hcs.
      unfold Q2R. cbn [Qnum Qden]. rewrite Z2Pos.id by nia.
      assert (Hd : 0 < IZR (dot x x * dot y y)) by (apply IZR_lt; nia).
      apply IZR_le in Hcs.
      apply Rmult_le_reg_r with (r := IZR (dot x x * dot y y)); auto.
      rewrite Rmult_assoc, Rinv_l by lra. lra. }
  nra.
Qed.

Lemma cosine_similarity_self (x : list Z) :
  dot x x <> 0%Z -> cosine_similarity x x = 1.
Proof.
  intros H. rewrite cosine_similarity_eq, (scale_square x H).
  field. apply not_0_IZR. exact H.
Qed.

(** Ordering by the rational square is ordering by the cosine. *)
Lemma cos2_le_cosine (x y z : list Z) :
  Forall (fun a => 0 <= a)%Z x -> Forall (fun a => 0 <= a)%Z y ->
  Forall (fun a => 0 <= a)%Z z ->
  (cos2 x y <= cos2 x z)%Q ->
  cosine_similarity x y <= cosine_similarity x z.
Proof.
  intros Hx Hy Hz H. apply Qle_Rle in H.
  rewrite <- !cosine_similarity_square in H.
  pose proof (cosine_similarity_nonneg x y Hx Hy).
  pose proof (cosine_similarity_nonneg x z Hx Hz).
  nra.
Qed.
End Cosine.

(** The entries of [genre_sim] are the squares of the cosines. *)
Lemma genre_sim_square (genre_mat : list (list Z)) (i j : nat) :
  i < length genre_mat -> j < length genre_mat ->
  Q2R (nth j (nth i (genre_sim genre_mat) []) 0%Q)
  = (cosine_similarity (nth i genre_mat []) (nth j genre_mat [])
     * cosine_similarity (nth i genre_mat []) (nth j genre_mat []))%R.
Proof.
  intros Hi Hj. unfold genre_sim.
  rewrite (nth_indep _ [] (map (fun y => cos2 [] y) genre_mat))
    by (rewrite length_map; exact Hi).
  rewrite (map_nth (fun x => map (fun y => cos2 x y) genre_mat)).
  rewrite (nth_indep _ 0%Q (cos2 (nth i genre_mat []) []))
    by (rewrite length_map; exact Hj).
  rewrite (map_nth (fun y => cos2 (nth i genre_mat []) y)).
  symmetry. apply cosine_similarity_square.
Qed.

(** ** argsort *)

Lemma StronglySorted_weaken {A : Type} (R R' : A -> A -> Prop) (l : list A) :
  (forall a b, In a l -> In b l -> R a b -> R' a b) ->
  StronglySorted R l -> StronglySorted R' l.
Proof.
  intros H Hs. induction Hs as [|x l Hl IH Hx].
  - constructor.
  - constructor.
    + apply IH. intros a b Ha Hb. apply H; right; assumption.
    + rewrite Forall_forall in *. intros y Hy.
      apply H; [left; reflexivity | right; exact Hy | apply Hx; exact Hy].
Qed.

Lemma insert_index_perm (v : list Q) (i : nat) (l : list nat) :
  Permutation (insert_index v i l) (i :: l).
Proof.
  induction l as [|j l IH]; simpl.
  - apply Permutation_refl.
  - destruct (Qle_bool (nth i v 0%Q) (nth j v 0%Q)).
    + apply Permutation_refl.
    + eapply Permutation_trans; [apply perm_skip, IH | apply perm_swap].
Qed.

Lemma insert_index_sorted (v : list Q) (i : nat) (l : list nat) :
  StronglySorted (fun a b => (nth a v 0 <= nth b v 0)%Q) l ->
  StronglySorted (fun a b => (nth a v 0 <= nth b v 0)%Q) (insert_index v i l).
Proof.
  induction 1 as [|j l Hl IH Hj]; simpl.
  - repeat constructor.
  - destruct (Qle_bool (nth i v 0%Q) (nth j v 0%Q)) eqn:E.
    + apply Qle_bool_iff in E. constructor.
      * constructor; assumption.
      * constructor; [exact E|].
        rewrite Forall_forall in *. intros k Hk.
        eapply Qle_trans; [exact E | apply Hj; exact Hk].
    + constructor; [exact IH|].
      apply (Permutation_Forall (Permutation_sym (insert_index_perm v i l))).
      constructor; [|exact Hj].
      destruct (Qlt_le_dec (nth j v 0%Q) (nth i v 0%Q)) as [Hlt|Hle].
      * apply Qlt_le_weak. exact Hlt.
      * apply Qle_bool_iff in Hle. congruence.
Qed.

Lemma argsort_stable_contract : argsort_contract argsort_stable.
Proof.
  intros v. unfold argsort_stable.
  generalize (seq 0 (length v)) as l.
  induction l as [|i l [IHp IHs]]; simpl.
  - split; constructor.
  - split.
    + eapply Permutation_trans; [apply insert_index_perm|].
      apply perm_skip. exact IHp.
    + apply insert_index_sorted. exact IHs.
Qed.

Lemma genre_sim_sorted_ind_nth argsort (genre_mat : list (list Z)) (t : nat) :
  t < length genre_mat ->
  nth_error (genre_sim_sorted_ind argsort genre_mat) t
  = Some (rev (argsort (map (cos2 (nth t genre_mat [])) genre_mat))).
Proof.
  intros Ht. unfold genre_sim_sorted_ind, genre_sim.
  rewrite !nth_error_map.
  rewrite (nth_error_nth' genre_mat [] Ht). reflexivity.
Qed.

Section Ranking.
Variable argsort : list Q -> list nat.
Hypothesis argsort_ok : argsort_contract argsort.

Lemma ranking_perm (v : list Q) :
  Permutation (rev (argsort v)) (seq 0 (length v)).
Proof.
  eapply Permutation_trans.
  - apply Permutation_sym, Permutation_rev.
  - apply argsort_ok.
Qed.

Lemma ranking_sorted (v : list Q) :
  StronglySorted (fun i j => (nth j v 0 <= nth i v 0)%Q) (rev (argsort v)).
Proof.
  apply (StronglySorted_rev (fun i j => (nth i v 0 <= nth j v 0)%Q)).
  apply argsort_ok.
Qed.

Lemma ranking_In (v : list Q) (i : nat) :
  In i (rev (argsort v)) <-> i < length v.
Proof.
  split.
  - intros H. apply (Permutation_in _ (ranking_perm v)) in H.
    apply in_seq in H. lia.
  - intros H.
    apply (Permutation_in _ (Permutation_sym (ranking_perm v))).
    apply in_seq. lia.
Qed.

Lemma ranking_NoDup (v : list Q) : NoDup (rev (argsort v)).
Proof.
  apply (Permutation_NoDup (Permutation_sym (ranking_perm v))).
  apply seq_NoDup.
Qed.

(** The handler on a title that names exactly one row [t]: the ranking of
    row [t] is a similarity-descending permutation of all row indices, and
    the handler returns the posters of its first 16 entries other than
    [t]. *)
Lemma post_unique movies target t genre_mat :
  title_index movies target = [t] ->
  fit_transform (genres_literal movies) = inr genre_mat ->
  let x := nth t genre_mat [] in
  let ranking := rev (argsort (map (cos2 x) genre_mat)) in
  t < length movies /\
  Permutation ranking (seq 0 (length movies)) /\
  StronglySorted
    (fun i j => (cos2 x (nth j genre_mat []) <= cos2 x (nth i genre_mat []))%Q)
    ranking /\
  similar_indexes argsort movies target
  = inr (filter (ne_index t) (firstn 16 ranking)) /\
  post argsort movies target
  = inr (map (poster_at movies) (filter (ne_index t) (firstn 16 ranking))).
Proof.
  intros Ht Hfit x ranking.
  pose proof (fit_transform_length movies genre_mat Hfit) as Hlen.
  assert (Htn : t < length movies).
  { assert (Hin : In t (title_index movies target))
      by (rewrite Ht; left; reflexivity).
    apply title_index_In in Hin. destruct Hin as (m & Hm & _).
    apply nth_error_Some. rewrite Hm. discriminate. }
  assert (Hperm : Permutation ranking (seq 0 (length movies))).
  { unfold ranking. rewrite <- Hlen.
    rewrite <- (length_map (cos2 x) genre_mat). apply ranking_perm. }
  assert (Hrange : forall i, In i ranking -> i < length movies).
  { intros i Hi. apply (Permutation_in _ Hperm) in Hi.
    apply in_seq in Hi. lia. }
  assert (Hsim : similar_indexes argsort movies target
                 = inr (filter (ne_index t) (firstn 16 ranking))).
  { apply similar_indexes_unique with (genre_mat := genre_mat); auto.
    apply genre_sim_sorted_ind_nth. lia. }
  split; [exact Htn|]. split; [exact Hperm|]. split; [|split].
  - eapply StronglySorted_weaken; [|apply ranking_sorted].
    cbv beta. intros i j Hi Hj H.
    fold ranking in Hi, Hj. apply Hrange in Hi, Hj.
    rewrite !(nth_indep _ 0%Q (cos2 x [])) in H
      by (rewrite length_map; lia).
    rewrite !(map_nth (cos2 x)) in H. exact H.
  - exact Hsim.
  - apply post_of_indexes; auto.
    intros i Hi. apply filter_In in Hi. destruct Hi as [Hi _].
    apply In_firstn in Hi. auto.
Qed.
End Ranking.

(** ** The handler, case by case *)


Lemma fit_transform_count_matrix_ok movies :
  vocabulary (genres_literal movies) <> [] ->
  fit_transform (genres_literal movies) = inr (count_matrix movies).
Proof.
  apply fit_transform_ok.
Qed.


Lemma length_concat_const {A : Type} (c : nat) (ls : list (list A)) :
  Forall (fun l => length l = c) ls -> length (concat ls) = length ls * c.
Proof.
  induction 1 as [|l ls Hl _ IH]; simpl; auto.
  rewrite length_app, Hl, IH. reflexivity.
Qed.

Lemma title_index_length (movies : list Movie) (target : string) :
  length (title_index movies target) <= length movies.
Proof.
  unfold title_index.
  rewrite <- (length_seq (length movies) 0) at 2. apply filter_length_le.
Qed.

Section Cases.
Variable argsort : list Q -> list nat.
Hypothesis argsort_ok : argsort_contract argsort.



(** The handler returns whenever the vocabulary is not empty and the title
    names at most one row. *)
Lemma post_returns_unique movies target t :
  title_index movies target = [t] ->
  vocabulary (genres_literal movies) <> [] ->
  post argsort movies target
  = inr (map (poster_at movies)
             (filter (ne_index t) (firstn 16 (ranking argsort movies t)))).
Proof.
  intros Ht Hv.
  pose proof (fit_transform_count_matrix_ok movies Hv) as Hfit.
  destruct (post_unique argsort argsort_ok _ _ _ _ Ht Hfit)
    as (_ & _ & _ & _ & Hp).
  exact Hp.
Qed.
End Cases.

(** ** The ranking of a row *)

Lemma count_matrix_length (movies : list Movie) :
  length (count_matrix movies) = length movies.
Proof.
  unfold count_matrix, genres_literal. rewrite !length_map. reflexivity.
Qed.

Lemma count_matrix_nonneg (movies : list Movie) (i : nat) :
  Forall (fun a => 0 <= a)%Z (nth i (count_matrix movies) []).
Proof.
  destruct (nth_in_or_default i (count_matrix movies) []) as [H|E].
  - unfold count_matrix in H at 2. apply in_map_iff in H.
    destruct H as (d & <- & _). apply count_vector_nonneg.
  - rewrite E. constructor.
Qed.


Section RankingOfRow.
Variable argsort : list Q -> list nat.
Hypothesis argsort_ok : argsort_contract argsort.

Lemma ranking_permutation movies t :
  Permutation (ranking argsort movies t) (seq 0 (length movies)).
Proof.
  unfold ranking.
  replace (length movies)
    with (length (map (cos2 (nth t (count_matrix movies) []))
                      (count_matrix movies)))
    by (rewrite length_map; apply count_matrix_length).
  apply ranking_perm. exact argsort_ok.
Qed.

Lemma ranking_in_range movies t i :
  In i (ranking argsort movies t) <-> i < length movies.
Proof.
  split; intros H.
  - apply (Permutation_in _ (ranking_permutation movies t)) in H.
    apply in_seq in H. lia.
  - apply (Permutation_in _ (Permutation_sym (ranking_permutation movies t))).
    apply in_seq. lia.
Qed.


Lemma ranking_descending movies t :
  StronglySorted
    (fun i j => (genre_similarity2 movies t j <= genre_similarity2 movies t i)%Q)
    (ranking argsort movies t).
Proof.
  eapply StronglySorted_weaken;
    [|apply (ranking_sorted argsort argsort_ok)].
  cbv beta. intros i j Hi Hj H.
  apply ranking_in_range in Hi, Hj. unfold genre_similarity2.
  set (x := nth t (count_matrix movies) []) in *.
  rewrite !(nth_indep _ 0%Q (cos2 x [])) in H
    by (rewrite length_map, count_matrix_length; lia).
  rewrite !(map_nth (cos2 x)) in H. exact H.
Qed.

Lemma ranking_descending_cosine movies t :
  StronglySorted
    (fun i j => (genre_similarity movies t j <= genre_similarity movies t i)%R)
    (ranking argsort movies t).
Proof.
  eapply StronglySorted_weaken; [|apply ranking_descending].
  cbv beta. intros i j _ _ H. unfold genre_similarity.
  apply cos2_le_cosine; auto using count_matrix_nonneg.
Qed.



End RankingOfRow.

(** * Properties of the endpoint *)

(** ** Selection *)



(** ** Self-exclusion *)




(** ** Size *)


Section Size.
Variable argsort : list Q -> list nat.
Hypothesis argsort_ok : argsort_contract argsort.


End Size.


(** ** Tokens and features *)




Lemma bigrams_adjacent (a b : string) (l : list string) :
  adjacent a b l -> In (a ++ " " ++ b)%string (bigrams l).
Proof.
  intros (l1 & l2 & ->). induction l1 as [|x l1 IH].
  - left. reflexivity.
  - destruct l1 as [|y l1]; right; exact IH.
Qed.

Lemma dot_zeros (x : list Z) :
  Forall (fun a => a = 0%Z) x -> dot x x = 0%Z.
Proof.
  induction 1 as [|a x Ha _ IH]; simpl; auto. subst a. rewrite IH. ring.
Qed.

(** ** Absent titles and tiny catalogs *)

(** A non-empty catalog without any token: the vectorizer raises before
    the title is looked up. *)
Lemma absent_title_raises :
  single_short_tag_catalog <> [] /\
  (forall m, In m single_short_tag_catalog -> movie_title m <> "Saw") /\
  post argsort_stable single_short_tag_catalog "Saw" = inl EmptyVocabulary /\
  post argsort_stable single_short_tag_catalog "Saw" <> inr [].
Proof.
  split; [discriminate|]. split; [|split].
  - intros m [<-|[]]. discriminate.
  - vm_compute. reflexivity.
  - vm_compute. discriminate.
Qed.

(** The empty catalog: the vectorizer sees no document and raises. *)
Lemma empty_catalog_raises :
  length (@nil Movie) <= 1 /\
  post argsort_stable [] "Up" = inl EmptyVocabulary /\
  post argsort_stable [] "Up" <> inr [].
Proof.
  split; [simpl; lia|]. split; [reflexivity | discriminate].
Qed.

(** ** Rows of three entries *)

Lemma permutation_of_three (l : list nat) :
  Permutation l [0; 1; 2] ->
  l = [0; 1; 2] \/ l = [0; 2; 1] \/ l = [1; 0; 2] \/
  l = [1; 2; 0] \/ l = [2; 0; 1] \/ l = [2; 1; 0].
Proof.
  intros H. pose proof (Permutation_length H) as Hl.
  destruct l as [|a [|b [|c [|d l]]]]; try discriminate.
  assert (Ha : In a [0; 1; 2]) by (apply (Permutation_in _ H); simpl; auto).
  assert (Hb : In b [0; 1; 2]) by (apply (Permutation_in _ H); simpl; auto).
  assert (Hc : In c [0; 1; 2]) by (apply (Permutation_in _ H); simpl; auto).
  assert (Hnd : NoDup [a; b; c]).
  { apply (Permutation_NoDup (Permutation_sym H)). apply (seq_NoDup 3 0). }
  apply NoDup_cons_iff in Hnd. destruct Hnd as [Hna Hnd].
  apply NoDup_cons_iff in Hnd. destruct Hnd as [Hnb _].
  simpl in Ha, Hb, Hc, Hna, Hnb.
  destruct Ha as [<-|[<-|[<-|[]]]]; destruct Hb as [<-|[<-|[<-|[]]]];
    destruct Hc as [<-|[<-|[<-|[]]]];
    try (exfalso; intuition congruence); auto 10.
Qed.

Lemma sorted_three {A : Type} (R : A -> A -> Prop) (a b c : A) :
  StronglySorted R [a; b; c] -> R a b /\ R a c /\ R b c.
Proof.
  intros H. apply StronglySorted_inv in H. destruct H as [H Ha].
  apply StronglySorted_inv in H. destruct H as [_ Hb].
  inversion Ha as [|? ? Hab Ha']; subst.
  inversion Ha' as [|? ? Hac _]; subst.
  inversion Hb as [|? ? Hbc _]; subst. auto.
Qed.

Section RowsOfThree.
Variable argsort : list Q -> list nat.
Hypothesis argsort_ok : argsort_contract argsort.

Lemma ranking_three_distinct (v : list Q) :
  length v = 3 ->
  (nth 2 v 0 < nth 1 v 0)%Q -> (nth 1 v 0 < nth 0 v 0)%Q ->
  rev (argsort v) = [0; 1; 2].
Proof.
  intros Hl H21 H10.
  destruct (argsort_ok v) as [Hp Hs]. rewrite Hl in Hp. simpl in Hp.
  pose proof (Qlt_trans _ _ _ H21 H10) as H20.
  destruct (permutation_of_three _ Hp) as [E|[E|[E|[E|[E|E]]]]];
    rewrite E in Hs |- *; apply sorted_three in Hs;
    destruct Hs as (Hab & Hac & Hbc); try reflexivity; exfalso;
    first [ exact (Qlt_not_le _ _ H21 Hab) | exact (Qlt_not_le _ _ H21 Hac)
          | exact (Qlt_not_le _ _ H21 Hbc) | exact (Qlt_not_le _ _ H10 Hab)
          | exact (Qlt_not_le _ _ H10 Hac) | exact (Qlt_not_le _ _ H10 Hbc)
          | exact (Qlt_not_le _ _ H20 Hab) | exact (Qlt_not_le _ _ H20 Hac)
          | exact (Qlt_not_le _ _ H20 Hbc) ].
Qed.

Lemma ranking_three_tie (v : list Q) :
  length v = 3 ->
  (nth 2 v 0 < nth 0 v 0)%Q -> (nth 1 v 0 < nth 0 v 0)%Q ->
  rev (argsort v) = [0; 1; 2] \/ rev (argsort v) = [0; 2; 1].
Proof.
  intros Hl H20 H10.
  destruct (argsort_ok v) as [Hp Hs]. rewrite Hl in Hp. simpl in Hp.
  destruct (permutation_of_three _ Hp) as [E|[E|[E|[E|[E|E]]]]];
    rewrite E in Hs |- *; apply sorted_three in Hs;
    destruct Hs as (Hab & Hac & Hbc);
    try (left; reflexivity); try (right; reflexivity); exfalso;
    first [ exact (Qlt_not_le _ _ H10 Hab) | exact (Qlt_not_le _ _ H10 Hac)
          | exact (Qlt_not_le _ _ H10 Hbc) | exact (Qlt_not_le _ _ H20 Hab)
          | exact (Qlt_not_le _ _ H20 Hac) | exact (Qlt_not_le _ _ H20 Hbc) ].
Qed.
End RowsOfThree.

(** ** The scenario of the specification *)

(** The scenario as written: "Alien" ties "Saw" and "Up" at similarity 0,
    and the stable argsort, reversed, ranks "Up" before "Saw". *)
Lemma scenario_p3_first :
  title_index scenario_catalog "Alien" = [0] /\
  post argsort_stable scenario_catalog "Alien" = inr ["p3"; "p2"] /\
  ~ exists res,
      post argsort_stable scenario_catalog "Alien" = inr res /\
      ranked_ahead "p2" "p3" res.
Proof.
  split; [reflexivity|]. split; [vm_compute; reflexivity|].
  intros (res & Hp & (i & j & Hij & Hi & Hj)).
  assert (E : post argsort_stable scenario_catalog "Alien"
              = inr ["p3"; "p2"]) by (vm_compute; reflexivity).
  rewrite E in Hp. injection Hp as <-.
  destruct i as [|[|[|i]]]; simpl in Hi; try discriminate Hi.
  destruct j as [|[|[|j]]]; simpl in Hj; try discriminate Hj; lia.
Qed.

(** C1 (amended). With the catalog of the scenario written with a space
    after each comma ("Horror, Sci-Fi", "Animation, Family"), target "Alien"
    and k = 15, the result is exactly "p2" then "p3".  With the catalog
    exactly as the scenario writes it, the commas are deleted, "Alien" keeps
    no feature in common with "Saw" or "Up", both similarities are 0, and
    the result holds "p2" and "p3" in the order argsort leaves the tie. *)
Theorem scenario_ranking argsort :
  argsort_contract argsort ->
  (post argsort spaced_catalog "Alien" = inr ["p2"; "p3"] /\
   ranked_ahead "p2" "p3" ["p2"; "p3"]) /\
  genre_similarity scenario_catalog 0 1 = 0%R /\
  genre_similarity scenario_catalog 0 2 = 0%R /\
  (post argsort scenario_catalog "Alien" = inr ["p2"; "p3"] \/
   post argsort scenario_catalog "Alien" = inr ["p3"; "p2"]).
Proof.
  intros Hok. split; [split|split; [|split]].
  - assert (Hv : vocabulary (genres_literal spaced_catalog) <> [])
      by (vm_compute; discriminate).
    rewrite (post_returns_unique argsort Hok spaced_catalog "Alien" 0
               eq_refl Hv).
    unfold ranking.
    rewrite (ranking_three_distinct argsort Hok);
      [reflexivity | reflexivity | vm_compute; reflexivity
       | vm_compute; reflexivity].
  - exists 0, 1. repeat split. lia.
  - unfold genre_similarity. rewrite cosine_similarity_eq.
    replace (dot (nth 0 (count_matrix scenario_catalog) [])
                 (nth 1 (count_matrix scenario_catalog) []))
      with 0%Z by (vm_compute; reflexivity).
    unfold Rdiv. apply Rmult_0_l.
  - unfold genre_similarity. rewrite cosine_similarity_eq.
    replace (dot (nth 0 (count_matrix scenario_catalog) [])
                 (nth 2 (count_matrix scenario_catalog) []))
      with 0%Z by (vm_compute; reflexivity).
    unfold Rdiv. apply Rmult_0_l.
  - assert (Hv : vocabulary (genres_literal scenario_catalog) <> [])
      by (vm_compute; discriminate).
    rewrite (post_returns_unique argsort Hok scenario_catalog "Alien" 0
               eq_refl Hv).
    unfold ranking.
    destruct (ranking_three_tie argsort Hok
                (map (cos2 (nth 0 (count_matrix scenario_catalog) []))
                     (count_matrix scenario_catalog)))
      as [E|E];
      [reflexivity | vm_compute; reflexivity | vm_compute; reflexivity
       | rewrite E; left; reflexivity | rewrite E; right; reflexivity].
Qed.

Lemma scenario_ranking_witness :
  argsort_contract argsort_stable /\
  post argsort_stable spaced_catalog "Alien" = inr ["p2"; "p3"].
Proof.
  split; [exact argsort_stable_contract|].
  apply (scenario_ranking argsort_stable argsort_stable_contract).
Defined.

(** ** The vocabulary *)

(** "Alien" and "Saw" share the tag Horror, but after the commas are
    deleted no feature is counted in both rows, and neither "Horror" nor
    "Sci-Fi" is a feature. *)
Lemma shared_tag_without_shared_feature :
  In "Horror" (genre_tags (mkMovie "Alien" "p1" "Horror,Sci-Fi")) /\
  In "Horror" (genre_tags (mkMovie "Saw" "p2" "Horror")) /\
  fit_transform (genres_literal scenario_catalog)
  = inr (count_matrix scenario_catalog) /\
  ~ In "Horror" (vocabulary (genres_literal scenario_catalog)) /\
  ~ In "Sci-Fi" (vocabulary (genres_literal scenario_catalog)) /\
  Forall (fun counts => fst counts = 0%Z \/ snd counts = 0%Z)
         (combine (nth 0 (count_matrix scenario_catalog) [])
                  (nth 1 (count_matrix scenario_catalog) [])).
Proof.
  split; [left; reflexivity|]. split; [left; reflexivity|].
  split; [vm_compute; reflexivity|].
  assert (Ev : vocabulary (genres_literal scenario_catalog)
               = ["animationfamily"; "fi"; "horror"; "horrorsci";
                  "horrorsci fi"]) by (vm_compute; reflexivity).
  rewrite Ev. split; [|split].
  - intros [H|[H|[H|[H|[H|[]]]]]]; discriminate H.
  - intros [H|[H|[H|[H|[H|[]]]]]]; discriminate H.
  - assert (Ec : combine (nth 0 (count_matrix scenario_catalog) [])
                         (nth 1 (count_matrix scenario_catalog) [])
                 = [(0, 0); (1, 0); (0, 1); (1, 0); (1, 0)]%Z)
      by (vm_compute; reflexivity).
    rewrite Ec.
    repeat (apply Forall_cons; [simpl; auto|]). apply Forall_nil.
Qed.

(** * Further properties of the handler *)

(** ** When the handler returns *)





(** ** What the selection contains *)






(** ** The similarity matrix, feature by feature *)

Lemma dot_counts_zero_iff (g h : string -> Z) (V : list string) :
  (forall f, 0 <= g f)%Z -> (forall f, 0 <= h f)%Z ->
  dot (map g V) (map h V) = 0%Z <->
  forall f, In f V -> g f = 0%Z \/ h f = 0%Z.
Proof.
  intros Hg Hh. induction V as [|a V IH]; simpl.
  - split; [intros _ f [] | reflexivity].
  - assert (Hd : (0 <= dot (map g V) (map h V))%Z).
    { apply dot_nonneg; apply Forall_forall; intros x Hx;
        apply in_map_iff in Hx; destruct Hx as (f & <- & _); auto. }
    pose proof (Hg a) as Hga. pose proof (Hh a) as Hha. split.
    + intros Hzero f [<-|Hf].
      * assert (Hm : (g a * h a = 0)%Z) by nia.
        apply Z.mul_eq_0 in Hm. exact Hm.
      * apply IH; [nia | exact Hf].
    + intros Hall.
      assert (Hm : (g a * h a = 0)%Z).
      { apply Z.mul_eq_0. apply Hall. left. reflexivity. }
      assert (Hr : dot (map g V) (map h V) = 0%Z).
      { apply IH. intros f Hf. apply Hall. right. exact Hf. }
      lia.
Qed.

Lemma cosine_similarity_zero_iff (x y : list Z) :
  cosine_similarity x y = 0%R <-> dot x y = 0%Z.
Proof.
  rewrite cosine_similarity_eq.
  pose proof (scale_pos x) as Hx. pose proof (scale_pos y) as Hy.
  assert (Hp : (0 < scale x * scale y)%R) by (apply Rmult_lt_0_compat; auto).
  split.
  - intros H. unfold Rdiv in H. apply Rmult_integral in H.
    destruct H as [H|H].
    + apply eq_IZR. exact H.
    + exfalso. apply (Rinv_neq_0_compat (scale x * scale y)); [lra | exact H].
  - intros ->. unfold Rdiv. apply Rmult_0_l.
Qed.

(** ** Text preparation *)

Lemma string_app_assoc (a b c : string) :
  ((a ++ b) ++ c = a ++ (b ++ c))%string.
Proof.
  induction a as [|x a IH]; simpl; [reflexivity|]. rewrite IH. reflexivity.
Qed.

Lemma string_app_nil_r (a : string) : (a ++ EmptyString)%string = a.
Proof.
  induction a as [|x a IH]; simpl; [reflexivity|]. rewrite IH. reflexivity.
Qed.

Lemma string_length_app (a b : string) :
  String.length (a ++ b) = String.length a + String.length b.
Proof.
  induction a as [|x a IH]; simpl; [reflexivity|]. rewrite IH. reflexivity.
Qed.

Lemma lower_char_idempotent (c : ascii) :
  lower_char (lower_char c) = lower_char c.
Proof.
  destruct c as [[] [] [] [] [] [] [] []]; reflexivity.
Qed.

Lemma lower_char_word (c : ascii) :
  is_word_char (lower_char c) = is_word_char c.
Proof.
  destruct c as [[] [] [] [] [] [] [] []]; reflexivity.
Qed.

Lemma lower_char_comma (c : ascii) :
  Ascii.eqb (lower_char c) "," = Ascii.eqb c ",".
Proof.
  destruct c as [[] [] [] [] [] [] [] []]; reflexivity.
Qed.

Lemma word_char_not_comma (c : ascii) :
  is_word_char c = true -> Ascii.eqb c "," = false.
Proof.
  destruct c as [[] [] [] [] [] [] [] []]; vm_compute; intros H;
    first [reflexivity | discriminate H].
Qed.

Lemma lower_app (a b : string) :
  lower (a ++ b) = (lower a ++ lower b)%string.
Proof.
  induction a as [|x a IH]; simpl; [reflexivity|]. rewrite IH. reflexivity.
Qed.

Lemma lower_idempotent (a : string) : lower (lower a) = lower a.
Proof.
  induction a as [|x a IH]; simpl; [reflexivity|].
  rewrite lower_char_idempotent, IH. reflexivity.
Qed.

Lemma lower_length (a : string) : String.length (lower a) = String.length a.
Proof.
  induction a as [|x a IH]; simpl; [reflexivity|]. rewrite IH. reflexivity.
Qed.

Lemma all_word_chars_lower (a : string) :
  all_word_chars (lower a) = all_word_chars a.
Proof.
  induction a as [|x a IH]; simpl; [reflexivity|].
  rewrite lower_char_word, IH. reflexivity.
Qed.

Lemma all_word_chars_app (a b : string) :
  all_word_chars (a ++ b) = all_word_chars a && all_word_chars b.
Proof.
  induction a as [|x a IH]; simpl; [reflexivity|].
  rewrite IH, andb_assoc. reflexivity.
Qed.

Lemma replace_comma_app (a b : string) :
  replace_comma (a ++ b) = (replace_comma a ++ replace_comma b)%string.
Proof.
  induction a as [|x a IH]; simpl; [reflexivity|].
  destruct (Ascii.eqb x ","); rewrite IH; reflexivity.
Qed.

Lemma replace_comma_word (a : string) :
  all_word_chars a = true -> replace_comma a = a.
Proof.
  induction a as [|x a IH]; simpl; [reflexivity|].
  intros H. apply andb_true_iff in H. destruct H as [Hx Ha].
  rewrite (word_char_not_comma x Hx), (IH Ha). reflexivity.
Qed.

Lemma lower_replace_comma_lower (a : string) :
  lower (replace_comma (lower a)) = lower (replace_comma a).
Proof.
  induction a as [|x a IH]; simpl; [reflexivity|].
  rewrite lower_char_comma. destruct (Ascii.eqb x ","); simpl.
  - exact IH.
  - rewrite lower_char_idempotent, IH. reflexivity.
Qed.

Lemma findall_words_word (w rest run : string) :
  all_word_chars w = true ->
  findall_words (w ++ rest) run = findall_words rest (run ++ w).
Proof.
  revert run. induction w as [|c w IH]; simpl; intros run H.
  - rewrite string_app_nil_r. reflexivity.
  - apply andb_true_iff in H. destruct H as [Hc Hw].
    rewrite Hc, (IH _ Hw), string_app_assoc. reflexivity.
Qed.

Lemma tokenize_word (w : string) :
  all_word_chars w = true -> tokenize w = keep_run w.
Proof.
  intros H. unfold tokenize.
  rewrite <- (string_app_nil_r w) at 1.
  rewrite (findall_words_word w EmptyString EmptyString H). reflexivity.
Qed.

Lemma tokenize_word_space (w rest : string) :
  all_word_chars w = true ->
  tokenize (w ++ " " ++ rest) = keep_run w ++ tokenize rest.
Proof.
  intros H. unfold tokenize.
  rewrite (findall_words_word w _ EmptyString H). reflexivity.
Qed.

Lemma keep_run_long (w : string) :
  2 <= String.length w -> keep_run w = [w].
Proof.
  intros H. unfold keep_run.
  destruct (Nat.leb_spec 2 (String.length w)); [reflexivity | lia].
Qed.

Lemma lower_replace_comma_concat_space (tags : list string) :
  Forall (fun t => all_word_chars t = true) tags ->
  lower (replace_comma (String.concat ", " tags))
  = String.concat " " (map lower tags).
Proof.
  induction 1 as [|t tags Ht Htags IH]; [reflexivity|].
  destruct tags as [|u tags].
  - simpl. rewrite (replace_comma_word t Ht). reflexivity.
  - change (String.concat ", " (t :: u :: tags))
      with (t ++ ", " ++ String.concat ", " (u :: tags))%string.
    change (String.concat " " (map lower (t :: u :: tags)))
      with (lower t ++ " " ++ String.concat " " (map lower (u :: tags)))%string.
    rewrite replace_comma_app, (replace_comma_word t Ht), lower_app.
    rewrite <- IH. reflexivity.
Qed.

Lemma tokenize_concat_space (words : list string) :
  Forall (fun w => all_word_chars w = true /\ 2 <= String.length w) words ->
  tokenize (String.concat " " words) = words.
Proof.
  induction 1 as [|w words [Hw Hl] Hwords IH]; [reflexivity|].
  destruct words as [|u words].
  - simpl. rewrite (tokenize_word w Hw). apply keep_run_long. exact Hl.
  - change (String.concat " " (w :: u :: words))
      with (w ++ " " ++ String.concat " " (u :: words))%string.
    rewrite (tokenize_word_space w _ Hw), IH, (keep_run_long w Hl).
    reflexivity.
Qed.

(** X10. When the genre string lists its tags separated by a comma and a
    space, and every tag is a word of two characters or more, the tokens are
    exactly the tags, lower-cased, in order. *)
Theorem spaced_tags_are_tokens (title poster : string) (tags : list string) :
  Forall (fun t => all_word_chars t = true /\ 2 <= String.length t) tags ->
  genre_tokens (mkMovie title poster (String.concat ", " tags))
  = map lower tags.
Proof.
  intros H. unfold genre_tokens. cbn [movie_genres].
  rewrite lower_replace_comma_concat_space.
  - apply tokenize_concat_space.
    apply Forall_forall. intros w Hw. apply in_map_iff in Hw.
    destruct Hw as (t & <- & Ht). rewrite Forall_forall in H.
    destruct (H t Ht) as [Ha Hl].
    rewrite all_word_chars_lower, lower_length. auto.
  - eapply Forall_impl; [|exact H]. cbv beta. tauto.
Qed.

Lemma spaced_tags_are_tokens_witness :
  Forall (fun t => all_word_chars t = true /\ 2 <= String.length t)
         ["Animation"; "Family"] /\
  genre_tokens (mkMovie "Up" "p3" (String.concat ", " ["Animation"; "Family"]))
  = map lower ["Animation"; "Family"].
Proof.
  assert (H : Forall (fun t => all_word_chars t = true
                               /\ 2 <= String.length t)
                     ["Animation"; "Family"]).
  { repeat (apply Forall_cons; [split; [reflexivity | simpl; lia]|]).
    apply Forall_nil. }
  split; [exact H|].
  apply (spaced_tags_are_tokens "Up" "p3" ["Animation"; "Family"] H).
Defined.

Lemma lower_replace_comma_concat_comma (tags : list string) :
  Forall (fun t => all_word_chars t = true) tags ->
  lower (replace_comma (String.concat "," tags))
  = lower (String.concat EmptyString tags).
Proof.
  induction 1 as [|t tags Ht Htags IH]; [reflexivity|].
  destruct tags as [|u tags].
  - simpl. rewrite (replace_comma_word t Ht). reflexivity.
  - change (String.concat "," (t :: u :: tags))
      with (t ++ "," ++ String.concat "," (u :: tags))%string.
    change (String.concat EmptyString (t :: u :: tags))
      with (t ++ EmptyString ++ String.concat EmptyString (u :: tags))%string.
    rewrite replace_comma_app, (replace_comma_word t Ht), !lower_app.
    simpl. simpl in IH. rewrite IH. reflexivity.
Qed.

Lemma all_word_chars_concat (tags : list string) :
  Forall (fun t => all_word_chars t = true) tags ->
  all_word_chars (String.concat EmptyString tags) = true.
Proof.
  induction 1 as [|t tags Ht Htags IH]; [reflexivity|].
  destruct tags as [|u tags].
  - exact Ht.
  - change (String.concat EmptyString (t :: u :: tags))
      with (t ++ EmptyString ++ String.concat EmptyString (u :: tags))%string.
    rewrite all_word_chars_app, Ht. simpl. exact IH.
Qed.

(** X11. When the genre string lists its tags separated by a bare comma, and
    every tag is a word, the whole list is read as one token: the tags glued
    together, lower-cased.  Tags become separate tokens only where something
    other than the comma separates them. *)
Theorem comma_tags_are_glued (title poster : string) (tags : list string) :
  Forall (fun t => all_word_chars t = true) tags ->
  2 <= String.length (String.concat EmptyString tags) ->
  genre_tokens (mkMovie title poster (String.concat "," tags))
  = [lower (String.concat EmptyString tags)].
Proof.
  intros H Hl. unfold genre_tokens. cbn [movie_genres].
  rewrite (lower_replace_comma_concat_comma tags H).
  rewrite tokenize_word
    by (rewrite all_word_chars_lower; apply all_word_chars_concat; exact H).
  apply keep_run_long. rewrite lower_length. exact Hl.
Qed.

Lemma comma_tags_are_glued_witness :
  Forall (fun t => all_word_chars t = true) ["Animation"; "Family"] /\
  2 <= String.length (String.concat EmptyString ["Animation"; "Family"]) /\
  genre_tokens (mkMovie "Up" "p3" (String.concat "," ["Animation"; "Family"]))
  = [lower (String.concat EmptyString ["Animation"; "Family"])].
Proof.
  assert (H : Forall (fun t => all_word_chars t = true)
                     ["Animation"; "Family"]).
  { repeat (apply Forall_cons; [reflexivity|]). apply Forall_nil. }
  assert (Hl : 2 <= String.length
                      (String.concat EmptyString ["Animation"; "Family"]))
    by (simpl; lia).
  split; [exact H|]. split; [exact Hl|].
  apply (comma_tags_are_glued "Up" "p3" ["Animation"; "Family"] H Hl).
Defined.

(** ** What the handler reads of the table *)

Lemma title_index_ext (movies movies' : list Movie) (target : string) :
  map movie_title movies = map movie_title movies' ->
  title_index movies target = title_index movies' target.
Proof.
  intros H. unfold title_index.
  assert (Hl : length movies = length movies').
  { rewrite <- (length_map movie_title movies), H. apply length_map. }
  rewrite Hl. apply filter_ext. intros i.
  pose proof (nth_error_map movie_title i movies) as E.
  pose proof (nth_error_map movie_title i movies') as E'.
  rewrite H in E. rewrite E' in E.
  destruct (nth_error movies i), (nth_error movies' i); simpl in E;
    try discriminate; [|reflexivity].
  injection E as E. rewrite E. reflexivity.
Qed.

Lemma iloc_posters_ext (movies movies' : list Movie) (indexes : list nat) :
  map movie_poster movies = map movie_poster movies' ->
  bind (iloc movies indexes) (fun ms => ret (map movie_poster ms))
  = bind (iloc movies' indexes) (fun ms => ret (map movie_poster ms)).
Proof.
  intros H. unfold iloc.
  induction indexes as [|i indexes IH]; [reflexivity|].
  cbn [mapM].
  pose proof (nth_error_map movie_poster i movies) as E.
  pose proof (nth_error_map movie_poster i movies') as E'.
  rewrite H in E. rewrite E' in E.
  destruct (nth_error movies i) as [m|], (nth_error movies' i) as [m'|];
    simpl in E; try discriminate; [|reflexivity].
  injection E as E. cbn [bind ret raise].
  destruct (mapM _ indexes) as [e|ms], (mapM _ indexes) as [e'|ms'];
    cbn [bind ret] in *; try discriminate; try congruence.
  injection IH as IH. cbn [map]. rewrite E, IH. reflexivity.
Qed.

(** ** The count matrix *)

Lemma insert_feature_perm (f : string) (l : list string) :
  Permutation (insert_feature f l) (f :: l).
Proof.
  induction l as [|g l IH]; simpl.
  - apply Permutation_refl.
  - destruct (String.leb f g).
    + apply Permutation_refl.
    + eapply Permutation_trans; [apply perm_skip, IH | apply perm_swap].
Qed.

Lemma sort_features_perm (l : list string) :
  Permutation (sort_features l) l.
Proof.
  induction l as [|f l IH]; simpl.
  - apply Permutation_refl.
  - eapply Permutation_trans; [apply insert_feature_perm|].
    apply perm_skip. exact IH.
Qed.

Lemma row_sum_add (g h : string -> Z) (V : list string) :
  row_sum (map (fun f => g f + h f)%Z V)
  = (row_sum (map g V) + row_sum (map h V))%Z.
Proof.
  unfold row_sum. induction V as [|a V IH]; simpl; [reflexivity|].
  rewrite IH. ring.
Qed.

Lemma row_sum_indicator (a : string) (V : list string) :
  NoDup V -> In a V ->
  row_sum (map (fun f => if string_dec a f then 1 else 0)%Z V) = 1%Z.
Proof.
  unfold row_sum. induction 1 as [|b V Hb HV IH]; intros Hin; [destruct Hin|].
  simpl. destruct (string_dec a b) as [->|Hne].
  - assert (E : fold_right Z.add 0%Z
                  (map (fun f => if string_dec b f then 1 else 0)%Z V) = 0%Z).
    { clear IH HV Hin. induction V as [|c V IHV]; simpl; [reflexivity|].
      destruct (string_dec b c) as [->|_].
      - exfalso. apply Hb. left. reflexivity.
      - rewrite IHV; [reflexivity|]. intros H. apply Hb. right. exact H. }
    rewrite E. reflexivity.
  - destruct Hin as [E|Hin]; [congruence|]. rewrite (IH Hin). reflexivity.
Qed.

Lemma row_sum_counts (l V : list string) :
  NoDup V -> incl l V ->
  row_sum (map (fun f => Z.of_nat (count_occ string_dec l f)) V)
  = Z.of_nat (length l).
Proof.
  intros HV. induction l as [|a l IH]; intros Hincl.
  - simpl. unfold row_sum. clear. induction V as [|b V IHV]; simpl;
      [reflexivity|]. rewrite IHV. reflexivity.
  - assert (E : map (fun f => Z.of_nat (count_occ string_dec (a :: l) f)) V
                = map (fun f => Z.of_nat (count_occ string_dec l f)
                                + (if string_dec a f then 1 else 0))%Z V).
    { apply map_ext. intros f. simpl.
      destruct (string_dec a f); lia. }
    rewrite E, row_sum_add, IH, row_sum_indicator.
    + simpl length. lia.
    + exact HV.
    + apply Hincl. left. reflexivity.
    + intros x Hx. apply Hincl. right. exact Hx.
Qed.

Lemma bigrams_length (l : list string) :
  length (bigrams l) = length l - 1.
Proof.
  induction l as [|a l IH]; [reflexivity|].
  destruct l as [|b l]; [reflexivity|].
  change (bigrams (a :: b :: l))
    with ((a ++ " " ++ b)%string :: bigrams (b :: l)).
  simpl length in *. rewrite IH. lia.
Qed.

(** * The handler over any analyzer *)

(** The lemmas on [post] above, for [post_with analyzer]. *)

Section AnyAnalyzerFacts.
Variable analyzer : string -> list string.

Lemma fit_transform_inr_with (docs : list string) (genre_mat : list (list Z)) :
  (fit_transform_with analyzer) docs = inr genre_mat ->
  (vocabulary_with analyzer) docs <> [] /\
  genre_mat = map ((count_vector_with analyzer) ((vocabulary_with analyzer) docs)) docs.
Proof.
  unfold fit_transform_with. destruct ((vocabulary_with analyzer) docs) eqn:E.
  - discriminate.
  - intros H. injection H as <-. split; [discriminate | reflexivity].
Qed.

Lemma fit_transform_ok_with (docs : list string) :
  (vocabulary_with analyzer) docs <> [] ->
  (fit_transform_with analyzer) docs = inr (map ((count_vector_with analyzer) ((vocabulary_with analyzer) docs)) docs).
Proof.
  unfold fit_transform_with. destruct ((vocabulary_with analyzer) docs) eqn:E.
  - intros H. contradiction.
  - reflexivity.
Qed.

Lemma fit_transform_length_with (movies : list Movie) (genre_mat : list (list Z)) :
  (fit_transform_with analyzer) (genres_literal movies) = inr genre_mat ->
  length genre_mat = length movies.
Proof.
  intros H. apply fit_transform_inr_with in H. destruct H as [_ ->].
  unfold genres_literal. rewrite !length_map. reflexivity.
Qed.

Lemma In_vocabulary_with (f : string) (docs : list string) :
  In f ((vocabulary_with analyzer) docs) <-> exists d, In d docs /\ In f (analyzer d).
Proof.
  unfold vocabulary_with. rewrite In_sort_features, nodup_In, in_concat.
  split.
  - intros (l & Hl & Hf). apply in_map_iff in Hl.
    destruct Hl as (d & <- & Hd). eauto.
  - intros (d & Hd & Hf). exists (analyzer d). split; auto.
    apply in_map. exact Hd.
Qed.

Lemma count_vector_nonneg_with (vocab : list string) (doc : string) :
  Forall (fun a => 0 <= a)%Z ((count_vector_with analyzer) vocab doc).
Proof.
  unfold count_vector_with. apply Forall_forall. intros a Ha.
  apply in_map_iff in Ha. destruct Ha as (f & <- & _). lia.
Qed.

Lemma similar_indexes_unique_with argsort movies target t genre_mat row :
  title_index movies target = [t] ->
  (fit_transform_with analyzer) (genres_literal movies) = inr genre_mat ->
  nth_error (genre_sim_sorted_ind argsort genre_mat) t = Some row ->
  (similar_indexes_with analyzer) argsort movies target
  = inr (filter (ne_index t) (firstn 16 row)).
Proof.
  intros Ht Hfit Hrow. unfold similar_indexes_with.
  rewrite Hfit. cbn [bind]. rewrite Ht.
  unfold take_rows. cbn [mapM]. rewrite Hrow. cbn [bind ret concat].
  rewrite app_nil_r, not_equal_single. cbn [bind].
  apply bool_index_map.
Qed.

Lemma similar_indexes_absent_with argsort movies target genre_mat :
  title_index movies target = [] ->
  (fit_transform_with analyzer) (genres_literal movies) = inr genre_mat ->
  (similar_indexes_with analyzer) argsort movies target = inr [].
Proof.
  intros Ht Hfit. unfold similar_indexes_with.
  rewrite Hfit. cbn [bind]. rewrite Ht. reflexivity.
Qed.

Lemma post_of_indexes_with argsort movies target indexes :
  (similar_indexes_with analyzer) argsort movies target = inr indexes ->
  (forall i, In i indexes -> i < length movies) ->
  (post_with analyzer) argsort movies target = inr (map (poster_at movies) indexes).
Proof.
  intros Hs Hr. unfold post_with. rewrite Hs. cbn [bind].
  rewrite iloc_in_range by exact Hr. cbn [bind ret].
  rewrite poster_row_or_default. reflexivity.
Qed.

Lemma post_inr_indexes_with argsort movies target res :
  (post_with analyzer) argsort movies target = inr res ->
  exists indexes,
    (similar_indexes_with analyzer) argsort movies target = inr indexes /\
    res = map (poster_at movies) indexes /\
    forall i, In i indexes -> i < length movies.
Proof.
  unfold post_with. intros H.
  destruct ((similar_indexes_with analyzer) argsort movies target) as [e|indexes];
    cbn [bind] in H; [discriminate|].
  destruct (iloc movies indexes) as [e|ms] eqn:Ei; cbn [bind ret] in H;
    [discriminate|].
  injection H as <-. exists indexes. split; [reflexivity|].
  apply mapM_inr in Ei.
  assert (Hr : forall i, In i indexes -> i < length movies).
  { clear - Ei. induction Ei as [|i m l ms Him _ IH]; intros j Hj.
    - destruct Hj.
    - destruct Hj as [<-|Hj]; auto.
      apply nth_error_Some. destruct (nth_error movies i); discriminate. }
  split; auto.
  clear Hr. induction Ei as [|i m l ms Him _ IH]; simpl; auto.
  f_equal; auto. unfold poster_at.
  destruct (nth_error movies i); [|discriminate].
  injection Him as ->. reflexivity.
Qed.

Section AnyAnalyzerRanking1.
Variable argsort : list Q -> list nat.
Hypothesis argsort_ok : argsort_contract argsort.

Lemma post_unique_with movies target t genre_mat :
  title_index movies target = [t] ->
  (fit_transform_with analyzer) (genres_literal movies) = inr genre_mat ->
  let x := nth t genre_mat [] in
  let ranking := rev (argsort (map (cos2 x) genre_mat)) in
  t < length movies /\
  Permutation ranking (seq 0 (length movies)) /\
  StronglySorted
    (fun i j => (cos2 x (nth j genre_mat []) <= cos2 x (nth i genre_mat []))%Q)
    ranking /\
  (similar_indexes_with analyzer) argsort movies target
  = inr (filter (ne_index t) (firstn 16 ranking)) /\
  (post_with analyzer) argsort movies target
  = inr (map (poster_at movies) (filter (ne_index t) (firstn 16 ranking))).
Proof.
  intros Ht Hfit x ranking.
  pose proof (fit_transform_length_with movies genre_mat Hfit) as Hlen.
  assert (Htn : t < length movies).
  { assert (Hin : In t (title_index movies target))
      by (rewrite Ht; left; reflexivity).
    apply title_index_In in Hin. destruct Hin as (m & Hm & _).
    apply nth_error_Some. rewrite Hm. discriminate. }
  assert (Hperm : Permutation ranking (seq 0 (length movies))).
  { unfold ranking. rewrite <- Hlen.
    rewrite <- (length_map (cos2 x) genre_mat). apply (ranking_perm argsort argsort_ok). }
  assert (Hrange : forall i, In i ranking -> i < length movies).
  { intros i Hi. apply (Permutation_in _ Hperm) in Hi.
    apply in_seq in Hi. lia. }
  assert (Hsim : (similar_indexes_with analyzer) argsort movies target
                 = inr (filter (ne_index t) (firstn 16 ranking))).
  { apply similar_indexes_unique_with with (genre_mat := genre_mat); auto.
    apply genre_sim_sorted_ind_nth. lia. }
  split; [exact Htn|]. split; [exact Hperm|]. split; [|split].
  - eapply StronglySorted_weaken; [|apply (ranking_sorted argsort argsort_ok)].
    cbv beta. intros i j Hi Hj H.
    fold ranking in Hi, Hj. apply Hrange in Hi, Hj.
    rewrite !(nth_indep _ 0%Q (cos2 x [])) in H
      by (rewrite length_map; lia).
    rewrite !(map_nth (cos2 x)) in H. exact H.
  - exact Hsim.
  - apply post_of_indexes_with; auto.
    intros i Hi. apply filter_In in Hi. destruct Hi as [Hi _].
    apply In_firstn in Hi. auto.
Qed.

End AnyAnalyzerRanking1.

Lemma fit_transform_count_matrix_with movies genre_mat :
  (fit_transform_with analyzer) (genres_literal movies) = inr genre_mat ->
  genre_mat = (count_matrix_with analyzer) movies.
Proof.
  intros H. apply fit_transform_inr_with in H. destruct H as [_ ->]. reflexivity.
Qed.

Lemma fit_transform_count_matrix_ok_with movies :
  (vocabulary_with analyzer) (genres_literal movies) <> [] ->
  (fit_transform_with analyzer) (genres_literal movies) = inr ((count_matrix_with analyzer) movies).
Proof.
  apply fit_transform_ok_with.
Qed.

Lemma similar_indexes_inr_fit_with argsort movies target indexes :
  (similar_indexes_with analyzer) argsort movies target = inr indexes ->
  (fit_transform_with analyzer) (genres_literal movies) = inr ((count_matrix_with analyzer) movies).
Proof.
  unfold similar_indexes_with. intros H.
  destruct ((fit_transform_with analyzer) (genres_literal movies)) as [e|X] eqn:E;
    [discriminate|].
  rewrite (fit_transform_count_matrix_with _ _ E). reflexivity.
Qed.

Section AnyAnalyzerRanking2.
Variable argsort : list Q -> list nat.
Hypothesis argsort_ok : argsort_contract argsort.

Lemma similar_indexes_ambiguous_with movies target t1 t2 rest genre_mat :
  title_index movies target = t1 :: t2 :: rest ->
  (fit_transform_with analyzer) (genres_literal movies) = inr genre_mat ->
  (similar_indexes_with analyzer) argsort movies target = inl ShapeMismatch
  \/ (similar_indexes_with analyzer) argsort movies target = inl IndexOutOfBounds.
Proof.
  intros Ht Hfit. unfold similar_indexes_with. rewrite Hfit. cbn [bind].
  pose proof (fit_transform_length_with movies genre_mat Hfit) as Hlen.
  pose proof (title_index_length movies target) as Hm.
  destruct (take_rows (genre_sim_sorted_ind argsort genre_mat)
                      (title_index movies target) 16)
    as [e|selected] eqn:Esel.
  { unfold take_rows in Esel. cbn [bind].
    assert (He : e = IndexOutOfBounds).
    { clear - Esel. revert e Esel.
      induction (title_index movies target) as [|t l IH]; simpl;
        intros e H; [discriminate|].
      destruct (nth_error (genre_sim_sorted_ind argsort genre_mat) t);
        cbn [bind ret raise] in H.
      - destruct (mapM _ l) as [e'|bs]; cbn [bind] in H.
        + injection H as <-. apply IH. reflexivity.
        + discriminate.
      - injection H as <-. reflexivity. }
    subst e. right. reflexivity. }
  cbn [bind]. left.
  apply mapM_inr in Esel.
  assert (Hc : Forall (fun l => length l = min 16 (length movies)) selected).
  { clear - Esel Hlen argsort_ok.
    induction Esel as [|t row l rows Hrow _ IH]; constructor; auto.
    destruct (nth_error (genre_sim_sorted_ind argsort genre_mat) t)
      as [r|] eqn:Er; [|discriminate].
    assert (Hrow' : row = firstn 16 r) by (unfold ret in Hrow; congruence).
    subst row. clear Hrow.
    assert (Htl : t < length genre_mat).
    { apply nth_error_Some.
      unfold genre_sim_sorted_ind, genre_sim in Er.
      rewrite !nth_error_map in Er.
      destruct (nth_error genre_mat t); [discriminate|discriminate]. }
    rewrite genre_sim_sorted_ind_nth in Er by exact Htl.
    assert (Er' : r = rev (argsort (map (cos2 (nth t genre_mat []))
                                        genre_mat))) by congruence.
    subst r. clear Er.
    rewrite length_firstn.
    rewrite (Permutation_length (ranking_perm argsort argsort_ok _)).
    rewrite length_seq, length_map, Hlen. reflexivity. }
  apply length_concat_const in Hc.
  apply Forall2_length in Esel.
  rewrite Ht in *. simpl length in *.
  unfold not_equal. simpl length.
  set (n := length (concat selected)) in *.
  assert (Hn : n = S (S (length rest)) * min 16 (length movies)) by lia.
  assert (H2 : 2 <= min 16 (length movies)) by lia.
  assert (Hgt : S (S (length rest)) < n) by nia.
  destruct (Nat.eqb_spec n (S (S (length rest)))); [lia|].
  destruct (Nat.eqb_spec n 1); [lia|]. reflexivity.
Qed.

Lemma post_inr_cases_with movies target res :
  (post_with analyzer) argsort movies target = inr res ->
  (vocabulary_with analyzer) (genres_literal movies) <> [] /\
  ((title_index movies target = [] /\ res = []) \/
   (exists t,
      title_index movies target = [t] /\
      res = map (poster_at movies)
                (filter (ne_index t) (firstn 16 ((ranking_with analyzer) argsort movies t))))).
Proof.
  intros H.
  destruct (post_inr_indexes_with _ _ _ _ H) as (indexes & Hs & -> & Hr).
  pose proof (similar_indexes_inr_fit_with _ _ _ _ Hs) as Hfit.
  split.
  { apply fit_transform_inr_with in Hfit. tauto. }
  destruct (title_index movies target) as [|t [|t2 rest]] eqn:Et.
  - left. split; auto.
    rewrite (similar_indexes_absent_with _ _ _ _ Et Hfit) in Hs.
    injection Hs as <-. reflexivity.
  - right. exists t. split; auto.
    destruct (post_unique_with argsort argsort_ok _ _ _ _ Et Hfit)
      as (_ & _ & _ & Hs' & _).
    cbv zeta in Hs'. fold ((ranking_with analyzer) argsort movies t) in Hs'.
    assert (Hi : indexes
                 = filter (ne_index t) (firstn 16 ((ranking_with analyzer) argsort movies t)))
      by congruence.
    rewrite Hi. reflexivity.
  - exfalso.
    destruct (similar_indexes_ambiguous_with _ _ _ _ _ _ Et Hfit) as [E|E];
      rewrite E in Hs; discriminate.
Qed.

Lemma post_returns_unique_with movies target t :
  title_index movies target = [t] ->
  (vocabulary_with analyzer) (genres_literal movies) <> [] ->
  (post_with analyzer) argsort movies target
  = inr (map (poster_at movies)
             (filter (ne_index t) (firstn 16 ((ranking_with analyzer) argsort movies t)))).
Proof.
  intros Ht Hv.
  pose proof (fit_transform_count_matrix_ok_with movies Hv) as Hfit.
  destruct (post_unique_with argsort argsort_ok _ _ _ _ Ht Hfit)
    as (_ & _ & _ & _ & Hp).
  exact Hp.
Qed.

End AnyAnalyzerRanking2.

Lemma count_matrix_length_with (movies : list Movie) :
  length ((count_matrix_with analyzer) movies) = length movies.
Proof.
  unfold count_matrix_with, genres_literal. rewrite !length_map. reflexivity.
Qed.

Lemma count_matrix_nonneg_with (movies : list Movie) (i : nat) :
  Forall (fun a => 0 <= a)%Z (nth i ((count_matrix_with analyzer) movies) []).
Proof.
  destruct (nth_in_or_default i ((count_matrix_with analyzer) movies) []) as [H|E].
  - unfold count_matrix_with in H at 2. apply in_map_iff in H.
    destruct H as (d & <- & _). apply count_vector_nonneg_with.
  - rewrite E. constructor.
Qed.

Section AnyAnalyzerRanking3.
Variable argsort : list Q -> list nat.
Hypothesis argsort_ok : argsort_contract argsort.

Lemma ranking_permutation_with movies t :
  Permutation ((ranking_with analyzer) argsort movies t) (seq 0 (length movies)).
Proof.
  unfold ranking_with.
  replace (length movies)
    with (length (map (cos2 (nth t ((count_matrix_with analyzer) movies) []))
                      ((count_matrix_with analyzer) movies)))
    by (rewrite length_map; apply count_matrix_length_with).
  apply ranking_perm. exact argsort_ok.
Qed.

Lemma ranking_in_range_with movies t i :
  In i ((ranking_with analyzer) argsort movies t) <-> i < length movies.
Proof.
  split; intros H.
  - apply (Permutation_in _ (ranking_permutation_with movies t)) in H.
    apply in_seq in H. lia.
  - apply (Permutation_in _ (Permutation_sym (ranking_permutation_with movies t))).
    apply in_seq. lia.
Qed.

Lemma ranking_nodup_with movies t : NoDup ((ranking_with analyzer) argsort movies t).
Proof.
  apply (Permutation_NoDup (Permutation_sym (ranking_permutation_with movies t))).
  apply seq_NoDup.
Qed.

Lemma ranking_descending_with movies t :
  StronglySorted
    (fun i j => ((genre_similarity2_with analyzer) movies t j <= (genre_similarity2_with analyzer) movies t i)%Q)
    ((ranking_with analyzer) argsort movies t).
Proof.
  eapply StronglySorted_weaken;
    [|apply (ranking_sorted argsort argsort_ok)].
  cbv beta. intros i j Hi Hj H.
  apply ranking_in_range_with in Hi, Hj. unfold genre_similarity2_with.
  set (x := nth t ((count_matrix_with analyzer) movies) []) in *.
  rewrite !(nth_indep _ 0%Q (cos2 x [])) in H
    by (rewrite length_map, count_matrix_length_with; lia).
  rewrite !(map_nth (cos2 x)) in H. exact H.
Qed.

Lemma ranking_descending_cosine_with movies t :
  StronglySorted
    (fun i j => ((genre_similarity_with analyzer) movies t j <= (genre_similarity_with analyzer) movies t i)%R)
    ((ranking_with analyzer) argsort movies t).
Proof.
  eapply StronglySorted_weaken; [|apply ranking_descending_with].
  cbv beta. intros i j _ _ H. unfold genre_similarity_with.
  apply cos2_le_cosine; auto using count_matrix_nonneg_with.
Qed.

Lemma post_unique_inr_with movies target t res :
  title_index movies target = [t] ->
  (post_with analyzer) argsort movies target = inr res ->
  (similar_indexes_with analyzer) argsort movies target
  = inr (filter (ne_index t) (firstn 16 ((ranking_with analyzer) argsort movies t))) /\
  res = map (poster_at movies)
            (filter (ne_index t) (firstn 16 ((ranking_with analyzer) argsort movies t))).
Proof.
  intros Ht Hp.
  destruct (post_inr_cases_with argsort argsort_ok _ _ _ Hp) as [Hv Hc].
  pose proof (fit_transform_count_matrix_ok_with movies Hv) as Hfit.
  destruct (post_unique_with argsort argsort_ok _ _ _ _ Ht Hfit)
    as (_ & _ & _ & Hs & Hp').
  cbv zeta in Hs, Hp'. fold ((ranking_with analyzer) argsort movies t) in Hs, Hp'.
  split; [exact Hs | congruence].
Qed.

Lemma selection_in_range_with movies t i :
  In i (filter (ne_index t) (firstn 16 ((ranking_with analyzer) argsort movies t))) ->
  i <> t /\ i < length movies.
Proof.
  intros H. apply filter_In in H. destruct H as [H Hne]. split.
  - unfold ne_index in Hne. apply negb_true_iff, Nat.eqb_neq in Hne.
    exact Hne.
  - apply In_firstn in H. apply ranking_in_range_with in H. exact H.
Qed.

Lemma selection_nodup_with movies t :
  NoDup (filter (ne_index t) (firstn 16 ((ranking_with analyzer) argsort movies t))).
Proof.
  apply NoDup_filter, NoDup_firstn, ranking_nodup_with.
Qed.

End AnyAnalyzerRanking3.

Lemma count_vector_nth_with (vocab : list string) (doc : string) (k : nat)
    (f : string) :
  nth_error vocab k = Some f ->
  nth k ((count_vector_with analyzer) vocab doc) 0%Z
  = Z.of_nat (count_occ string_dec (analyzer doc) f).
Proof.
  intros H. unfold count_vector_with.
  apply nth_error_nth. rewrite nth_error_map, H. reflexivity.
Qed.

Lemma count_matrix_nth_with movies i m :
  nth_error movies i = Some m ->
  nth i ((count_matrix_with analyzer) movies) []
  = (count_vector_with analyzer) ((vocabulary_with analyzer) (genres_literal movies))
                 (replace_comma (movie_genres m)).
Proof.
  intros H. unfold count_matrix_with. apply nth_error_nth.
  unfold genres_literal. rewrite !nth_error_map, H. reflexivity.
Qed.

Lemma post_empty_vocabulary_with argsort movies target :
  (vocabulary_with analyzer) (genres_literal movies) = [] ->
  (post_with analyzer) argsort movies target = inl EmptyVocabulary.
Proof.
  intros Hv. unfold post_with, similar_indexes_with, fit_transform_with.
  rewrite Hv. reflexivity.
Qed.

Lemma post_absent_with argsort movies target :
  (vocabulary_with analyzer) (genres_literal movies) <> [] ->
  title_index movies target = [] ->
  (post_with analyzer) argsort movies target = inr [].
Proof.
  intros Hv Ht.
  pose proof (fit_transform_count_matrix_ok_with movies Hv) as Hfit.
  pose proof (similar_indexes_absent_with argsort _ _ _ Ht Hfit) as Hs.
  apply (post_of_indexes_with _ _ _ _ Hs). intros i [].
Qed.

Lemma fit_transform_ext_with (docs docs' : list string) :
  map analyzer docs = map analyzer docs' ->
  (fit_transform_with analyzer) docs = (fit_transform_with analyzer) docs'.
Proof.
  intros H. unfold fit_transform_with, vocabulary_with. rewrite <- H.
  assert (E : forall V, map ((count_vector_with analyzer) V) docs
                        = map ((count_vector_with analyzer) V) docs').
  { intros V. unfold count_vector_with.
    rewrite <- (map_map analyzer
                  (fun fs => map (fun f => Z.of_nat (count_occ string_dec fs f))
                                 V) docs).
    rewrite <- (map_map analyzer
                  (fun fs => map (fun f => Z.of_nat (count_occ string_dec fs f))
                                 V) docs').
    rewrite H. reflexivity. }
  destruct (sort_features (nodup string_dec (concat (map analyzer docs))));
    [reflexivity|].
  rewrite E. reflexivity.
Qed.

Lemma similar_indexes_ext_with argsort movies movies' target :
  map movie_title movies = map movie_title movies' ->
  map (features_with analyzer) movies = map (features_with analyzer) movies' ->
  (similar_indexes_with analyzer) argsort movies target
  = (similar_indexes_with analyzer) argsort movies' target.
Proof.
  intros Ht Hf. unfold similar_indexes_with.
  rewrite (title_index_ext movies movies' target Ht).
  rewrite (fit_transform_ext_with (genres_literal movies) (genres_literal movies')).
  - reflexivity.
  - unfold genres_literal. rewrite !map_map. exact Hf.
Qed.

Lemma post_ext_with argsort movies movies' target :
  map movie_title movies = map movie_title movies' ->
  map movie_poster movies = map movie_poster movies' ->
  map (features_with analyzer) movies = map (features_with analyzer) movies' ->
  (post_with analyzer) argsort movies target = (post_with analyzer) argsort movies' target.
Proof.
  intros Ht Hp Hf. unfold post_with.
  rewrite (similar_indexes_ext_with argsort movies movies' target Ht Hf).
  destruct ((similar_indexes_with analyzer) argsort movies' target) as [e|indexes];
    cbn [bind]; [reflexivity|].
  apply iloc_posters_ext. exact Hp.
Qed.

Lemma vocabulary_NoDup_with (docs : list string) : NoDup ((vocabulary_with analyzer) docs).
Proof.
  unfold vocabulary_with.
  apply (Permutation_NoDup (Permutation_sym (sort_features_perm _))).
  apply NoDup_nodup.
Qed.

Lemma similarity_zero_features_with movies i j mi mj :
  nth_error movies i = Some mi ->
  nth_error movies j = Some mj ->
  ((genre_similarity_with analyzer) movies i j = 0%R <->
   forall f, In f ((features_with analyzer) mi) -> ~ In f ((features_with analyzer) mj)).
Proof.
  intros Hi Hj. unfold genre_similarity_with.
  rewrite cosine_similarity_zero_iff.
  rewrite (count_matrix_nth_with _ _ _ Hi), (count_matrix_nth_with _ _ _ Hj).
  unfold count_vector_with. fold ((features_with analyzer) mi). fold ((features_with analyzer) mj).
  rewrite dot_counts_zero_iff by (intros; lia).
  split.
  - intros H f Hfi Hfj.
    assert (Hv : In f ((vocabulary_with analyzer) (genres_literal movies))).
    { apply In_vocabulary_with. exists (replace_comma (movie_genres mi)). split.
      - unfold genres_literal.
        apply (in_map (fun m => replace_comma (movie_genres m))).
        eapply nth_error_In; eauto.
      - exact Hfi. }
    pose proof (proj1 (count_occ_In string_dec ((features_with analyzer) mi) f) Hfi).
    pose proof (proj1 (count_occ_In string_dec ((features_with analyzer) mj) f) Hfj).
    destruct (H f Hv); lia.
  - intros H f _.
    destruct (in_dec string_dec f ((features_with analyzer) mi)) as [Hfi|Hfi].
    + right. specialize (H f Hfi).
      apply (count_occ_not_In string_dec) in H. lia.
    + left. apply (count_occ_not_In string_dec) in Hfi. lia.
Qed.

Lemma feature_in_vocabulary movies m f :
  In m movies -> In f (features_with analyzer m) ->
  In f (vocabulary_with analyzer (genres_literal movies)).
Proof.
  intros Hm Hf. apply In_vocabulary_with.
  exists (replace_comma (movie_genres m)). split; [|exact Hf].
  unfold genres_literal.
  apply (in_map (fun m => replace_comma (movie_genres m))). exact Hm.
Qed.

Lemma vocabulary_with_nonempty_iff movies :
  vocabulary_with analyzer (genres_literal movies) <> [] <->
  exists m, In m movies /\ features_with analyzer m <> [].
Proof.
  split.
  - intros Hv.
    destruct (vocabulary_with analyzer (genres_literal movies)) as [|f l] eqn:E;
      [contradiction|].
    assert (Hin : In f (vocabulary_with analyzer (genres_literal movies)))
      by (rewrite E; left; reflexivity).
    apply In_vocabulary_with in Hin. destruct Hin as (d & Hd & Hf).
    unfold genres_literal in Hd. apply in_map_iff in Hd.
    destruct Hd as (m & <- & Hm). exists m. split; [exact Hm|].
    unfold features_with. intros E'. rewrite E' in Hf. destruct Hf.
  - intros (m & Hm & Hf) Hv.
    destruct (features_with analyzer m) as [|f l] eqn:E; [contradiction|].
    assert (Hin : In f (vocabulary_with analyzer (genres_literal movies))).
    { apply (feature_in_vocabulary movies m); auto.
      rewrite E. left. reflexivity. }
    rewrite Hv in Hin. destruct Hin.
Qed.

Lemma vocabulary_with_empty movies :
  (forall m, In m movies -> features_with analyzer m = []) ->
  vocabulary_with analyzer (genres_literal movies) = [].
Proof.
  intros H.
  destruct (vocabulary_with analyzer (genres_literal movies)) as [|f l] eqn:E;
    [reflexivity|].
  assert (Hv : vocabulary_with analyzer (genres_literal movies) <> [])
    by (rewrite E; discriminate).
  apply vocabulary_with_nonempty_iff in Hv. destruct Hv as (m & Hm & Hf).
  elim Hf. apply H. exact Hm.
Qed.

Lemma row_zero_with movies i m :
  nth_error movies i = Some m -> features_with analyzer m = [] ->
  dot (nth i (count_matrix_with analyzer movies) [])
      (nth i (count_matrix_with analyzer movies) []) = 0%Z.
Proof.
  intros Hm Hf. apply dot_zeros.
  rewrite (count_matrix_nth_with _ _ _ Hm). unfold count_vector_with.
  fold (features_with analyzer m). rewrite Hf. simpl.
  apply Forall_forall. intros a Ha. apply in_map_iff in Ha.
  destruct Ha as (f & <- & _). reflexivity.
Qed.

(** ** Selection *)

(** C9 (amended). For every catalog of [n] movies on which the vectorizer
    returns a matrix (some genre string yields a feature) and every target
    title naming exactly one row [t], the handler takes row [t] of the
    similarity-descending ranking (a permutation of all [n] row indices),
    keeps its first 16 entries (all [n] when [n < 16]), removes the entries
    equal to [t], and maps what is left to posters.  When no genre string
    yields a feature the vectorizer raises and nothing is selected. *)
Theorem top16_then_drop_target argsort movies target t genre_mat :
  argsort_contract argsort ->
  title_index movies target = [t] ->
  fit_transform_with analyzer (genres_literal movies) = inr genre_mat ->
  nth_error (genre_sim_sorted_ind argsort genre_mat) t
  = Some (ranking_with analyzer argsort movies t) /\
  Permutation (ranking_with analyzer argsort movies t)
              (seq 0 (length movies)) /\
  StronglySorted
    (fun i j => (genre_similarity_with analyzer movies t j
                 <= genre_similarity_with analyzer movies t i)%R)
    (ranking_with analyzer argsort movies t) /\
  length (firstn 16 (ranking_with analyzer argsort movies t))
  = min 16 (length movies) /\
  similar_indexes_with analyzer argsort movies target
  = inr (filter (fun i => negb (i =? t))
                (firstn 16 (ranking_with analyzer argsort movies t))) /\
  post_with analyzer argsort movies target
  = inr (map (poster_at movies)
             (filter (fun i => negb (i =? t))
                     (firstn 16 (ranking_with analyzer argsort movies t)))).
Proof.
  intros Hok Ht Hfit.
  pose proof (fit_transform_count_matrix_with _ _ Hfit) as ->.
  destruct (post_unique_with argsort Hok _ _ _ _ Ht Hfit)
    as (Htn & _ & _ & Hs & Hp).
  cbv zeta in Hs, Hp.
  fold (ranking_with analyzer argsort movies t) in Hs, Hp.
  repeat split.
  - apply genre_sim_sorted_ind_nth. rewrite count_matrix_length_with.
    exact Htn.
  - apply ranking_permutation_with. exact Hok.
  - apply ranking_descending_cosine_with. exact Hok.
  - rewrite length_firstn.
    rewrite (Permutation_length
               (ranking_permutation_with argsort Hok movies t)).
    rewrite length_seq. reflexivity.
  - exact Hs.
  - exact Hp.
Qed.

(** ** Order *)

(** C7. For a target title naming exactly one row [t], the returned order is
    non-increasing in cosine similarity to row [t]: an entry that comes
    later never has a strictly higher similarity than one that comes
    earlier. *)
Theorem similarity_monotone argsort movies target t :
  argsort_contract argsort ->
  title_index movies target = [t] ->
  (vocabulary_with analyzer (genres_literal movies) <> [] ->
   exists res, post_with analyzer argsort movies target = inr res) /\
  forall res,
    post_with analyzer argsort movies target = inr res ->
    exists indexes,
      similar_indexes_with analyzer argsort movies target = inr indexes /\
      res = map (poster_at movies) indexes /\
      forall i j a b,
        i < j ->
        nth_error indexes i = Some a -> nth_error indexes j = Some b ->
        (genre_similarity_with analyzer movies t b
         <= genre_similarity_with analyzer movies t a)%R.
Proof.
  intros Hok Ht. split.
  - intros Hv. eexists. apply (post_returns_unique_with argsort Hok); eauto.
  - intros res Hp.
    destruct (post_unique_inr_with argsort Hok _ _ _ _ Ht Hp) as [Hs ->].
    eexists. split; [exact Hs|]. split; [reflexivity|].
    apply (StronglySorted_nth_error
             (fun i j => (genre_similarity_with analyzer movies t j
                          <= genre_similarity_with analyzer movies t i)%R)).
    apply StronglySorted_filter, StronglySorted_firstn.
    apply ranking_descending_cosine_with. exact Hok.
Qed.

(** ** Absent titles and tiny catalogs *)

(** C5 (amended). For every catalog in which at least one genre string
    yields a feature, and every target title that matches no row's title,
    the handler returns the empty sequence and signals nothing; in a catalog
    whose genre strings yield no feature at all, the vectorizer raises its
    empty-vocabulary error instead. *)
Theorem absent_title_returns_empty argsort movies target :
  (forall m, In m movies -> movie_title m <> target) ->
  ((exists m, In m movies /\ features_with analyzer m <> []) ->
   post_with analyzer argsort movies target = inr []) /\
  ((forall m, In m movies -> features_with analyzer m = []) ->
   post_with analyzer argsort movies target = inl EmptyVocabulary).
Proof.
  intros Habsent. split.
  - intros Hf. apply post_absent_with.
    + apply vocabulary_with_nonempty_iff. exact Hf.
    + apply title_index_nil. exact Habsent.
  - intros Hnone. apply post_empty_vocabulary_with, vocabulary_with_empty.
    exact Hnone.
Qed.

(** C6 (amended). For a catalog of exactly one movie whose genre string
    yields at least one feature, the handler returns the empty sequence and
    signals nothing, whatever the target title; for an empty catalog, and for
    one movie whose genre string yields no feature, the vectorizer raises
    its empty-vocabulary error. *)
Theorem single_movie_returns_empty argsort m target :
  argsort_contract argsort ->
  (features_with analyzer m <> [] ->
   post_with analyzer argsort [m] target = inr []) /\
  (features_with analyzer m = [] ->
   post_with analyzer argsort [m] target = inl EmptyVocabulary) /\
  post_with analyzer argsort [] target = inl EmptyVocabulary.
Proof.
  intros Hok. split; [|split].
  - intros Hf.
    assert (Hv : vocabulary_with analyzer (genres_literal [m]) <> []).
    { apply vocabulary_with_nonempty_iff. exists m.
      split; [left; reflexivity | exact Hf]. }
    assert (Ht : title_index [m] target
                 = if String.eqb (movie_title m) target then [0] else []).
    { unfold title_index. simpl.
      destruct (String.eqb (movie_title m) target); reflexivity. }
    destruct (String.eqb (movie_title m) target).
    + rewrite (post_returns_unique_with argsort Hok [m] target 0 Ht Hv).
      pose proof (ranking_permutation_with argsort Hok [m] 0) as Hp.
      simpl in Hp. apply Permutation_sym, Permutation_length_1_inv in Hp.
      rewrite Hp. reflexivity.
    + apply post_absent_with; assumption.
  - intros Hf. apply post_empty_vocabulary_with, vocabulary_with_empty.
    intros m' [<-|[]]. exact Hf.
  - reflexivity.
Qed.

(** ** Further properties *)

(** X1. The handler returns a list exactly when some genre string yields a
    feature and the target title is carried by at most one row; in every
    other case it raises. *)
Theorem post_returns_iff argsort movies target :
  argsort_contract argsort ->
  ((exists res, post_with analyzer argsort movies target = inr res) <->
   (exists m, In m movies /\ features_with analyzer m <> []) /\
   length (title_index movies target) <= 1).
Proof.
  intros Hok. split.
  - intros (res & Hp).
    destruct (post_inr_cases_with argsort Hok _ _ _ Hp) as [Hv Hc]. split.
    + apply vocabulary_with_nonempty_iff. exact Hv.
    + destruct Hc as [[-> _]|(t & -> & _)]; simpl; lia.
  - intros [Hf Hlen]. apply vocabulary_with_nonempty_iff in Hf.
    destruct (title_index movies target) as [|t [|t2 rest]] eqn:Et.
    + exists []. apply post_absent_with; assumption.
    + eexists. apply (post_returns_unique_with argsort Hok); eauto.
    + simpl in Hlen. lia.
Qed.

(** X3. For a target title naming exactly one row [t], the selection is the
    top of the ranking: a row other than [t] that is strictly more similar to
    the target than some returned row is returned too. *)
Theorem no_better_row_left_out argsort movies target t res :
  argsort_contract argsort ->
  title_index movies target = [t] ->
  post_with analyzer argsort movies target = inr res ->
  exists indexes,
    similar_indexes_with analyzer argsort movies target = inr indexes /\
    res = map (poster_at movies) indexes /\
    forall i j,
      In j indexes -> i < length movies -> i <> t ->
      (genre_similarity_with analyzer movies t j
       < genre_similarity_with analyzer movies t i)%R ->
      In i indexes.
Proof.
  intros Hok Ht Hp.
  destruct (post_unique_inr_with argsort Hok _ _ _ _ Ht Hp) as [Hs ->].
  eexists. split; [exact Hs|]. split; [reflexivity|].
  intros i j Hj Hi Hne Hlt.
  apply filter_In in Hj. destruct Hj as [Hj _].
  apply filter_In. split.
  - pose proof (ranking_descending_with argsort Hok movies t) as Hsorted.
    assert (Hin : In i (ranking_with analyzer argsort movies t))
      by (apply (ranking_in_range_with argsort Hok); exact Hi).
    rewrite <- (firstn_skipn 16 (ranking_with analyzer argsort movies t))
      in Hsorted, Hin.
    apply StronglySorted_app_elim in Hsorted.
    destruct Hsorted as (_ & _ & Hcross).
    apply in_app_or in Hin. destruct Hin as [Hin|Hin]; [exact Hin|].
    exfalso. specialize (Hcross j i Hj Hin). cbv beta in Hcross.
    unfold genre_similarity2_with in Hcross.
    apply cos2_le_cosine in Hcross; auto using count_matrix_nonneg_with.
    unfold genre_similarity_with in Hlt. lra.
  - unfold ne_index. apply negb_true_iff, Nat.eqb_neq. exact Hne.
Qed.

(** X6. Two rows have cosine similarity 0 exactly when their genre strings
    share no feature. *)
Theorem similarity_zero_iff_no_shared_feature movies i j mi mj :
  nth_error movies i = Some mi ->
  nth_error movies j = Some mj ->
  (genre_similarity_with analyzer movies i j = 0%R <->
   forall f, In f (features_with analyzer mi) ->
             ~ In f (features_with analyzer mj)).
Proof.
  exact (similarity_zero_features_with movies i j mi mj).
Qed.

(** X12. The handler reads the table only through the titles, the posters
    and the features of the genre strings: two tables that agree on these,
    row by row, get the same answer for every target, whatever else differs
    in their genre strings. *)
Theorem post_depends_on_features argsort movies movies' target :
  map movie_title movies = map movie_title movies' ->
  map movie_poster movies = map movie_poster movies' ->
  map (features_with analyzer) movies = map (features_with analyzer) movies' ->
  post_with analyzer argsort movies target
  = post_with analyzer argsort movies' target.
Proof.
  exact (post_ext_with argsort movies movies' target).
Qed.

(** X16. A row whose genre string yields no feature has cosine similarity 0
    with every row, itself included. *)
Theorem feature_free_row_similarity_zero movies i j mi :
  nth_error movies i = Some mi ->
  features_with analyzer mi = [] ->
  genre_similarity_with analyzer movies i j = 0%R.
Proof.
  intros Hi Hf. unfold genre_similarity_with.
  apply cosine_similarity_zero_iff. apply dot_self_zero.
  apply (row_zero_with movies i mi); assumption.
Qed.

End AnyAnalyzerFacts.

(** ** On ASCII text *)

(** On ASCII text the handler over the analyzer is the handler above. *)
Lemma post_with_analyze argsort movies target :
  post_with analyze argsort movies target = post argsort movies target.
Proof. reflexivity. Qed.

(** ** Witnesses and counterexamples on concrete tables *)

(** One row whose genre string yields no feature: its title is present
    once, the vectorizer raises and no index is selected. *)
Lemma nothing_selected_without_feature :
  title_index single_short_tag_catalog "Pi" = [0] /\
  similar_indexes argsort_stable single_short_tag_catalog "Pi"
  = inl EmptyVocabulary /\
  post argsort_stable single_short_tag_catalog "Pi" = inl EmptyVocabulary /\
  ~ exists indexes,
      similar_indexes argsort_stable single_short_tag_catalog "Pi"
      = inr indexes.
Proof.
  split; [reflexivity|]. split; [reflexivity|]. split; [reflexivity|].
  intros (indexes & H). vm_compute in H. discriminate H.
Qed.

Lemma top16_then_drop_target_witness :
  argsort_contract argsort_stable /\
  title_index spaced_catalog "Alien" = [0] /\
  fit_transform_with analyze (genres_literal spaced_catalog)
  = inr (count_matrix_with analyze spaced_catalog) /\
  length (firstn 16 (ranking_with analyze argsort_stable spaced_catalog 0))
  = 3 /\
  post_with analyze argsort_stable spaced_catalog "Alien"
  = inr (map (poster_at spaced_catalog)
             (filter (fun i => negb (i =? 0))
                     (firstn 16 (ranking_with analyze argsort_stable
                                              spaced_catalog 0)))).
Proof.
  pose proof (top16_then_drop_target analyze argsort_stable spaced_catalog
                "Alien" 0 (count_matrix_with analyze spaced_catalog)
                argsort_stable_contract eq_refl eq_refl) as H.
  split; [exact argsort_stable_contract|].
  split; [reflexivity|]. split; [reflexivity|].
  split; [apply H | apply H].
Defined.

Lemma similarity_monotone_witness :
  argsort_contract argsort_stable /\
  title_index spaced_catalog "Alien" = [0] /\
  exists indexes,
    similar_indexes_with analyze argsort_stable spaced_catalog "Alien"
    = inr indexes /\
    ["p2"; "p3"] = map (poster_at spaced_catalog) indexes /\
    forall i j a b,
      i < j ->
      nth_error indexes i = Some a -> nth_error indexes j = Some b ->
      (genre_similarity_with analyze spaced_catalog 0 b
       <= genre_similarity_with analyze spaced_catalog 0 a)%R.
Proof.
  split; [exact argsort_stable_contract|]. split; [reflexivity|].
  apply (proj2 (similarity_monotone analyze argsort_stable spaced_catalog
                  "Alien" 0 argsort_stable_contract eq_refl)).
  vm_compute. reflexivity.
Defined.

Lemma absent_title_returns_empty_witness :
  (forall m, In m spaced_catalog -> movie_title m <> "Heat") /\
  (exists m, In m spaced_catalog /\ features_with analyze m <> []) /\
  post_with analyze argsort_stable spaced_catalog "Heat" = inr [].
Proof.
  assert (Habsent : forall m, In m spaced_catalog -> movie_title m <> "Heat").
  { intros m [<-|[<-|[<-|[]]]]; discriminate. }
  assert (Hf : exists m, In m spaced_catalog /\ features_with analyze m <> []).
  { exists (mkMovie "Saw" "p2" "Horror"). split.
    - right. left. reflexivity.
    - vm_compute. discriminate. }
  split; [exact Habsent|]. split; [exact Hf|].
  apply (proj1 (absent_title_returns_empty analyze argsort_stable
                  spaced_catalog "Heat" Habsent)).
  exact Hf.
Defined.

Lemma single_movie_returns_empty_witness :
  argsort_contract argsort_stable /\
  features_with analyze (mkMovie "Saw" "p2" "Horror") <> [] /\
  post_with analyze argsort_stable [mkMovie "Saw" "p2" "Horror"] "Saw"
  = inr [].
Proof.
  assert (Hf : features_with analyze (mkMovie "Saw" "p2" "Horror") <> [])
    by (vm_compute; discriminate).
  split; [exact argsort_stable_contract|]. split; [exact Hf|].
  apply (proj1 (single_movie_returns_empty analyze argsort_stable
                  (mkMovie "Saw" "p2" "Horror") "Saw"
                  argsort_stable_contract)).
  exact Hf.
Defined.

Lemma post_returns_iff_witness :
  argsort_contract argsort_stable /\
  ((exists res, post_with analyze argsort_stable spaced_catalog "Saw"
                = inr res) <->
   (exists m, In m spaced_catalog /\ features_with analyze m <> []) /\
   length (title_index spaced_catalog "Saw") <= 1).
Proof.
  split; [exact argsort_stable_contract|].
  apply (post_returns_iff analyze argsort_stable spaced_catalog "Saw"
           argsort_stable_contract).
Defined.

Lemma no_better_row_left_out_witness :
  argsort_contract argsort_stable /\
  title_index two_genre_catalog "A" = [0] /\
  exists res indexes,
    post_with analyze argsort_stable two_genre_catalog "A" = inr res /\
    similar_indexes_with analyze argsort_stable two_genre_catalog "A"
    = inr indexes /\
    In 19 indexes /\ 5 < length two_genre_catalog /\ 5 <> 0 /\
    (genre_similarity_with analyze two_genre_catalog 0 19
     < genre_similarity_with analyze two_genre_catalog 0 5)%R /\
    In 5 indexes.
Proof.
  split; [exact argsort_stable_contract|]. split; [reflexivity|].
  assert (Hs : similar_indexes_with analyze argsort_stable two_genre_catalog
                 "A"
               = inr [9; 8; 7; 6; 5; 4; 3; 2; 1; 19; 18; 17; 16; 15; 14])
    by (vm_compute; reflexivity).
  assert (Hp : post_with analyze argsort_stable two_genre_catalog "A"
               = inr (map (poster_at two_genre_catalog)
                          [9; 8; 7; 6; 5; 4; 3; 2; 1; 19; 18; 17; 16; 15; 14]))
    by (vm_compute; reflexivity).
  assert (Hlt : (genre_similarity_with analyze two_genre_catalog 0 19
                 < genre_similarity_with analyze two_genre_catalog 0 5)%R).
  { unfold genre_similarity_with.
    assert (E0 : cosine_similarity
                   (nth 0 (count_matrix_with analyze two_genre_catalog) [])
                   (nth 19 (count_matrix_with analyze two_genre_catalog) [])
                 = 0%R)
      by (apply cosine_similarity_zero_iff; vm_compute; reflexivity).
    assert (E1 : cosine_similarity
                   (nth 0 (count_matrix_with analyze two_genre_catalog) [])
                   (nth 5 (count_matrix_with analyze two_genre_catalog) [])
                 = 1%R).
    { replace (nth 5 (count_matrix_with analyze two_genre_catalog) [])
        with (nth 0 (count_matrix_with analyze two_genre_catalog) [])
        by (vm_compute; reflexivity).
      apply cosine_similarity_self. vm_compute. discriminate. }
    rewrite E0, E1. lra. }
  destruct (no_better_row_left_out analyze argsort_stable two_genre_catalog
              "A" 0 _ argsort_stable_contract eq_refl Hp)
    as (indexes & Hs' & _ & Hall).
  eexists. exists indexes. split; [exact Hp|]. split; [exact Hs'|].
  assert (Ei : indexes
               = [9; 8; 7; 6; 5; 4; 3; 2; 1; 19; 18; 17; 16; 15; 14])
    by congruence.
  assert (H19 : In 19 indexes) by (rewrite Ei; simpl; auto 20).
  assert (H5 : 5 < length two_genre_catalog) by (vm_compute; lia).
  assert (Hne : 5 <> 0) by discriminate.
  split; [exact H19|]. split; [exact H5|]. split; [exact Hne|].
  split; [exact Hlt|].
  exact (Hall 5 19 H19 H5 Hne Hlt).
Defined.

Lemma similarity_zero_iff_no_shared_feature_witness :
  nth_error scenario_catalog 0 = Some (mkMovie "Alien" "p1" "Horror,Sci-Fi") /\
  nth_error scenario_catalog 1 = Some (mkMovie "Saw" "p2" "Horror") /\
  (genre_similarity_with analyze scenario_catalog 0 1 = 0%R <->
   forall f,
     In f (features_with analyze (mkMovie "Alien" "p1" "Horror,Sci-Fi")) ->
     ~ In f (features_with analyze (mkMovie "Saw" "p2" "Horror"))).
Proof.
  split; [reflexivity|]. split; [reflexivity|].
  apply (similarity_zero_iff_no_shared_feature analyze scenario_catalog 0 1
           (mkMovie "Alien" "p1" "Horror,Sci-Fi")
           (mkMovie "Saw" "p2" "Horror") eq_refl eq_refl).
Defined.

Lemma post_depends_on_features_witness :
  map movie_title spaced_catalog
  = map movie_title [ mkMovie "Alien" "p1" "horror -- SCI fi,, (a)";
                      mkMovie "Saw" "p2" "H,orror";
                      mkMovie "Up" "p3" "animation/family" ] /\
  map movie_poster spaced_catalog
  = map movie_poster [ mkMovie "Alien" "p1" "horror -- SCI fi,, (a)";
                       mkMovie "Saw" "p2" "H,orror";
                       mkMovie "Up" "p3" "animation/family" ] /\
  map (features_with analyze) spaced_catalog
  = map (features_with analyze)
        [ mkMovie "Alien" "p1" "horror -- SCI fi,, (a)";
          mkMovie "Saw" "p2" "H,orror";
          mkMovie "Up" "p3" "animation/family" ] /\
  post_with analyze argsort_stable spaced_catalog "Alien"
  = post_with analyze argsort_stable
              [ mkMovie "Alien" "p1" "horror -- SCI fi,, (a)";
                mkMovie "Saw" "p2" "H,orror";
                mkMovie "Up" "p3" "animation/family" ] "Alien".
Proof.
  split; [reflexivity|]. split; [reflexivity|].
  split; [vm_compute; reflexivity|].
  apply (post_depends_on_features analyze argsort_stable spaced_catalog _
           "Alien").
  - reflexivity.
  - reflexivity.
  - vm_compute. reflexivity.
Defined.

Lemma feature_free_row_similarity_zero_witness :
  nth_error short_tag_catalog 0 = Some (mkMovie "Pi" "p1" "A") /\
  features_with analyze (mkMovie "Pi" "p1" "A") = [] /\
  genre_similarity_with analyze short_tag_catalog 0 1 = 0%R.
Proof.
  split; [reflexivity|]. split; [reflexivity|].
  apply (feature_free_row_similarity_zero analyze short_tag_catalog 0 1
           (mkMovie "Pi" "p1" "A") eq_refl eq_refl).
Defined.

(** ** The vocabulary, over any tokenizer *)

Lemma chars_replace_comma (s : string) :
  chars (replace_comma s)
  = filter (fun c => negb (Ascii.eqb c ",")) (chars s).
Proof.
  induction s as [|c s IH]; simpl; [reflexivity|].
  destruct (Ascii.eqb c ","); simpl; rewrite IH; reflexivity.
Qed.

(** C2 (amended). For every catalog, the document vectorized for a movie
    is its genre string with every comma deleted and nothing put in its
    place: the genre string is not split at its commas, and two tags
    separated by a bare comma reach the vectorizer glued together.  The
    vocabulary contains every token the vectorizer reads in these documents
    and, as a 2-gram feature, every ordered adjacent pair of tokens of a
    document joined by a space; two movies whose documents share a token
    both have a positive count on that token's feature. *)
Theorem vocabulary_of_glued_tokens (tokens : string -> list string)
    movies genre_mat :
  fit_transform_with (analyze_with tokens) (genres_literal movies)
  = inr genre_mat ->
  (forall i m,
     nth_error movies i = Some m ->
     nth_error (genres_literal movies) i
     = Some (replace_comma (movie_genres m)) /\
     chars (replace_comma (movie_genres m))
     = filter (fun c => negb (Ascii.eqb c ",")) (chars (movie_genres m))) /\
  (forall a b : string,
     replace_comma (a ++ "," ++ b)
     = (replace_comma a ++ replace_comma b)%string) /\
  (forall m tok,
     In m movies -> In tok (tokens (replace_comma (movie_genres m))) ->
     In tok (vocabulary_with (analyze_with tokens) (genres_literal movies))) /\
  (forall m a b,
     In m movies -> adjacent a b (tokens (replace_comma (movie_genres m))) ->
     In (a ++ " " ++ b)%string
        (vocabulary_with (analyze_with tokens) (genres_literal movies))) /\
  (forall i j mi mj tok,
     nth_error movies i = Some mi -> nth_error movies j = Some mj ->
     In tok (tokens (replace_comma (movie_genres mi))) ->
     In tok (tokens (replace_comma (movie_genres mj))) ->
     exists k,
       nth_error (vocabulary_with (analyze_with tokens)
                                  (genres_literal movies)) k = Some tok /\
       (0 < nth k (nth i genre_mat []) 0)%Z /\
       (0 < nth k (nth j genre_mat []) 0)%Z).
Proof.
  intros Hfit.
  pose proof (fit_transform_count_matrix_with _ _ _ Hfit) as ->.
  assert (Htok : forall m tok,
             In m movies -> In tok (tokens (replace_comma (movie_genres m))) ->
             In tok (vocabulary_with (analyze_with tokens)
                                     (genres_literal movies))).
  { intros m tok Hm Ht. apply (feature_in_vocabulary _ movies m); auto.
    unfold features_with, analyze_with. apply in_or_app. left. exact Ht. }
  split; [|split; [|split; [|split]]].
  - intros i m Hm. split.
    + unfold genres_literal. rewrite nth_error_map, Hm. reflexivity.
    + apply chars_replace_comma.
  - intros a b. rewrite replace_comma_app. reflexivity.
  - exact Htok.
  - intros m a b Hm Hadj. apply (feature_in_vocabulary _ movies m); auto.
    unfold features_with, analyze_with. apply in_or_app. right.
    apply bigrams_adjacent. exact Hadj.
  - intros i j mi mj tok Hi Hj Hti Htj.
    pose proof (Htok mi tok (nth_error_In _ _ Hi) Hti) as Hv.
    destruct (In_nth_error _ _ Hv) as (k & Hk).
    exists k. split; [exact Hk|].
    rewrite (count_matrix_nth_with _ _ _ _ Hi),
            (count_matrix_nth_with _ _ _ _ Hj).
    rewrite !(count_vector_nth_with _ _ _ _ _ Hk).
    unfold analyze_with.
    assert (Hci : (count_occ string_dec
                     (tokens (replace_comma (movie_genres mi))
                      ++ bigrams (tokens (replace_comma (movie_genres mi))))
                     tok > 0)%nat)
      by (apply count_occ_In, in_or_app; left; exact Hti).
    assert (Hcj : (count_occ string_dec
                     (tokens (replace_comma (movie_genres mj))
                      ++ bigrams (tokens (replace_comma (movie_genres mj))))
                     tok > 0)%nat)
      by (apply count_occ_In, in_or_app; left; exact Htj).
    cbv zeta. lia.
Qed.

Lemma vocabulary_of_glued_tokens_witness :
  fit_transform_with (analyze_with ascii_tokens) (genres_literal spaced_catalog)
  = inr (count_matrix_with (analyze_with ascii_tokens) spaced_catalog) /\
  In "horror sci"
     (vocabulary_with (analyze_with ascii_tokens)
                      (genres_literal spaced_catalog)) /\
  exists k,
    nth_error (vocabulary_with (analyze_with ascii_tokens)
                               (genres_literal spaced_catalog)) k
    = Some "horror" /\
    (0 < nth k (nth 0 (count_matrix_with (analyze_with ascii_tokens)
                                         spaced_catalog) []) 0)%Z /\
    (0 < nth k (nth 1 (count_matrix_with (analyze_with ascii_tokens)
                                         spaced_catalog) []) 0)%Z.
Proof.
  assert (Hfit : fit_transform_with (analyze_with ascii_tokens)
                                    (genres_literal spaced_catalog)
                 = inr (count_matrix_with (analyze_with ascii_tokens)
                                          spaced_catalog))
    by (vm_compute; reflexivity).
  destruct (vocabulary_of_glued_tokens ascii_tokens spaced_catalog _ Hfit)
    as (_ & _ & _ & Hpair & Hshared).
  split; [exact Hfit|]. split.
  - apply (Hpair (mkMovie "Alien" "p1" "Horror, Sci-Fi") "horror" "sci").
    + left. reflexivity.
    + exists [], ["fi"]. vm_compute. reflexivity.
  - apply (Hshared 0 1 (mkMovie "Alien" "p1" "Horror, Sci-Fi")
                   (mkMovie "Saw" "p2" "Horror") "horror").
    + reflexivity.
    + reflexivity.
    + vm_compute. left. reflexivity.
    + vm_compute. left. reflexivity.
Defined.

(** X14. In the count matrix the vectorizer returns, the entries of a
    movie's row add up to the number of its features: a movie with k >= 1
    tokens has k 1-grams and k - 1 2-grams, so its row sums to 2k - 1, and a
    movie without token has a row of zeros.  No feature is lost or counted
    under two columns. *)
Theorem row_sum_counts_features (tokens : string -> list string)
    movies genre_mat i m :
  fit_transform_with (analyze_with tokens) (genres_literal movies)
  = inr genre_mat ->
  nth_error movies i = Some m ->
  row_sum (nth i genre_mat [])
  = Z.of_nat (length (tokens (replace_comma (movie_genres m)))
              + (length (tokens (replace_comma (movie_genres m))) - 1)).
Proof.
  intros Hfit Hm.
  pose proof (fit_transform_count_matrix_with _ _ _ Hfit) as ->.
  rewrite (count_matrix_nth_with _ _ _ _ Hm). unfold count_vector_with.
  rewrite row_sum_counts.
  - unfold analyze_with. cbv zeta.
    rewrite length_app, bigrams_length. reflexivity.
  - apply vocabulary_NoDup_with.
  - intros f Hf. apply (feature_in_vocabulary _ movies m).
    + eapply nth_error_In; eauto.
    + exact Hf.
Qed.

Lemma row_sum_counts_features_witness :
  fit_transform_with (analyze_with ascii_tokens) (genres_literal spaced_catalog)
  = inr (count_matrix_with (analyze_with ascii_tokens) spaced_catalog) /\
  nth_error spaced_catalog 0 = Some (mkMovie "Alien" "p1" "Horror, Sci-Fi") /\
  row_sum (nth 0 (count_matrix_with (analyze_with ascii_tokens)
                                    spaced_catalog) []) = 5%Z.
Proof.
  assert (Hfit : fit_transform_with (analyze_with ascii_tokens)
                                    (genres_literal spaced_catalog)
                 = inr (count_matrix_with (analyze_with ascii_tokens)
                                          spaced_catalog))
    by (vm_compute; reflexivity).
  split; [exact Hfit|]. split; [reflexivity|].
  rewrite (row_sum_counts_features ascii_tokens spaced_catalog _ 0
             (mkMovie "Alien" "p1" "Horror, Sci-Fi") Hfit eq_refl).
  vm_compute. reflexivity.
Defined.

(** ** Letter case, on ASCII text *)

Lemma lower_char_ascii (c : ascii) :
  (nat_of_ascii (lower_char c) <? 128) = (nat_of_ascii c <? 128).
Proof.
  destruct c as [[] [] [] [] [] [] [] []]; reflexivity.
Qed.

Lemma ascii_text_lower (s : string) : ascii_text (lower s) = ascii_text s.
Proof.
  induction s as [|c s IH]; simpl; [reflexivity|].
  rewrite lower_char_ascii, IH. reflexivity.
Qed.

Lemma ascii_text_replace_comma (s : string) :
  ascii_text s = true -> ascii_text (replace_comma s) = true.
Proof.
  induction s as [|c s IH]; simpl; [reflexivity|].
  intros H. apply andb_true_iff in H. destruct H as [Hc Hs].
  destruct (Ascii.eqb c ","); simpl; [auto|].
  rewrite Hc. simpl. auto.
Qed.

(** X13. On ASCII genre strings letter case never matters: for a tokenizer
    that reads ASCII text as [ascii_tokens] does, lower-casing every genre
    string of an all-ASCII table leaves the answer unchanged, for every
    target. *)
Theorem post_ignores_ascii_case (tokens : string -> list string)
    argsort movies target :
  (forall doc, ascii_text doc = true -> tokens doc = ascii_tokens doc) ->
  Forall (fun m => ascii_text (movie_genres m) = true) movies ->
  post_with (analyze_with tokens) argsort (map lower_genres movies) target
  = post_with (analyze_with tokens) argsort movies target.
Proof.
  intros Htok Hascii.
  apply post_ext_with; rewrite map_map.
  - apply map_ext. intros m. reflexivity.
  - apply map_ext. intros m. reflexivity.
  - clear target argsort.
    induction Hascii as [|m movies Hm _ IH]; [reflexivity|].
    cbn [map]. rewrite IH. f_equal.
    unfold features_with, analyze_with, lower_genres. cbn [movie_genres].
    rewrite (Htok (replace_comma (lower (movie_genres m))))
      by (apply ascii_text_replace_comma; rewrite ascii_text_lower; exact Hm).
    rewrite (Htok (replace_comma (movie_genres m)))
      by (apply ascii_text_replace_comma; exact Hm).
    unfold ascii_tokens. rewrite lower_replace_comma_lower. reflexivity.
Qed.

Lemma post_ignores_ascii_case_witness :
  (forall doc, ascii_text doc = true -> ascii_tokens doc = ascii_tokens doc) /\
  Forall (fun m => ascii_text (movie_genres m) = true) spaced_catalog /\
  post_with (analyze_with ascii_tokens) argsort_stable
            (map lower_genres spaced_catalog) "Alien"
  = post_with (analyze_with ascii_tokens) argsort_stable spaced_catalog
              "Alien".
Proof.
  assert (Htok : forall doc, ascii_text doc = true ->
                             ascii_tokens doc = ascii_tokens doc)
    by (intros; reflexivity).
  assert (Hascii : Forall (fun m => ascii_text (movie_genres m) = true)
                          spaced_catalog).
  { repeat (apply Forall_cons; [reflexivity|]). apply Forall_nil. }
  split; [exact Htok|]. split; [exact Hascii|].
  apply (post_ignores_ascii_case ascii_tokens argsort_stable spaced_catalog
           "Alien" Htok Hascii).
Defined.
